(** * StreamFuzz: a shallow embedding of [stream.py] and its properties

    The development follows the layout of the Python module: the string
    primitives the code relies on ([str.strip], [str.lstrip], [str.rstrip],
    [str.split]), the module constants, the [StreamFuzz] class with its
    methods ([__init__], [_fetch], [_process_paths], [_load_wordlist],
    [_save_results], [start]) and the [interactive_menu] loop.

    Conventions.
    - A Python [str] is a [string]; its characters are read as the code
      points below 256.
    - A Python [set] of strings is a [gset string]; a [dict] used as the
      file system is a [gmap string string] from path to file content.
    - The logger is a list of structured records, one per call of
      [logger.info], [logger.warning] or [logger.error].
    - What the network answers to a request is not decided by the program:
      it is an [outcome] supplied by the environment.  So is whether a
      file can be opened for writing.
    - An exception that nothing catches ends the function it leaves: the
      result tells whether the call returned or which exception left it. *)

From Stdlib Require Import ZArith Ascii String List Sorted Permutation Lia.
From stdpp Require Import base option list sets gmap strings sorting.

Local Open Scope Z_scope.
Local Open Scope string_scope.
Local Open Scope list_scope.

(** ** Python string primitives *)

Module PyStr.

(** [str.isspace] on the code points below 256: TAB..CR, FS..US, SPACE,
    NEL and NBSP.  This is the set [str.strip()] removes. *)
Definition is_space (c : ascii) : bool :=
  let n := nat_of_ascii c in
  ((9 <=? n)%nat && (n <=? 13)%nat)
  || ((28 <=? n)%nat && (n <=? 32)%nat)
  || (n =? 133)%nat || (n =? 160)%nat.

Definition is_char (a : ascii) (c : ascii) : bool := Ascii.eqb a c.

(** [s.lstrip(chars)]: drop the longest prefix made of stripped chars. *)
Fixpoint lstrip_by (P : ascii -> bool) (s : string) : string :=
  match s with
  | EmptyString => EmptyString
  | String c s' => if P c then lstrip_by P s' else s
  end.

(** [s.rstrip(chars)]: drop the longest suffix made of stripped chars. *)
Fixpoint rstrip_by (P : ascii -> bool) (s : string) : string :=
  match s with
  | EmptyString => EmptyString
  | String c s' =>
      match rstrip_by P s' with
      | EmptyString => if P c then EmptyString else String c EmptyString
      | r => String c r
      end
  end.

Definition strip (s : string) : string :=
  rstrip_by is_space (lstrip_by is_space s).

Definition lstrip_char (a : ascii) : string -> string := lstrip_by (is_char a).
Definition rstrip_char (a : ascii) : string -> string := rstrip_by (is_char a).

(** [s.split(sep)] for a one-character separator: always at least one
    piece, empty pieces are kept. *)
Fixpoint split_char (sep : ascii) (s : string) : list string :=
  match s with
  | EmptyString => [EmptyString]
  | String c s' =>
      if Ascii.eqb c sep then EmptyString :: split_char sep s'
      else match split_char sep s' with
           | [] => [String c EmptyString]
           | w :: ws => String c w :: ws
           end
  end.

(** Truthiness of a string: [if s:] holds for the non-empty ones. *)
Definition truthy (s : string) : bool :=
  match s with EmptyString => false | _ => true end.

(** First and last character, when there is one. *)
Definition head_char (s : string) : option ascii :=
  match s with EmptyString => None | String c _ => Some c end.

Fixpoint last_char (s : string) : option ascii :=
  match s with
  | EmptyString => None
  | String c EmptyString => Some c
  | String _ s' => last_char s'
  end.

(** Text-mode reading ([open(path, 'r')], universal newlines): CR LF and
    a lone CR both read as LF. *)
Fixpoint universal_newlines (s : string) : string :=
  match s with
  | EmptyString => EmptyString
  | String c s' =>
      if Ascii.eqb c "013" then
        match s' with
        | String c' _ =>
            if Ascii.eqb c' "010" then universal_newlines s'
            else String "010" (universal_newlines s')
        | EmptyString => String "010" EmptyString
        end
      else String c (universal_newlines s')
  end.

(** Iterating a text file: the lines, each with its terminating LF (the
    last one may lack it). *)
Fixpoint keep_lines (s : string) : list string :=
  match s with
  | EmptyString => []
  | String c s' =>
      if Ascii.eqb c "010" then String c EmptyString :: keep_lines s'
      else match keep_lines s' with
           | [] => [String c EmptyString]
           | l :: ls => String c l :: ls
           end
  end.

Definition file_lines (content : string) : list string :=
  keep_lines (universal_newlines content).

End PyStr.

(** The line feed, and a line of text followed by it. *)
Definition LF : string := String "010" EmptyString.

(** ** Module constants *)

Definition DEFAULT_WORDLIST : string := "Wordlist/pro_100.txt".
Definition DEFAULT_OUTPUT : string := "results.txt".

(** [list(range(200, 300)) + [401, 403]] *)
Definition VALID_STATUS_CODES : list Z :=
  map (fun k => 200 + Z.of_nat k) (seq 0 100) ++ [401; 403].

Definition DEFAULT_METHODS : list string := ["HEAD"].
Definition MAX_CONCURRENT_REQUESTS : nat := 100.
Definition COMMON_PATHS : list string :=
  ["/admin"; "/login"; "/dashboard"; "/user"; "/api"].

#[local] Set Warnings "-register-all".

(** Values produced by [json.loads]. *)
Inductive json : Type :=
| JNull
| JBool (b : bool)
| JNumber (literal : string)
| JString (s : string)
| JArray (items : list json)
| JObject (members : list (string * json)).

Definition DEFAULT_HEADERS : json := JObject [].
Definition DEFAULT_COOKIES : json := JObject [].

(** ** The logger

    One record per logging call; the constructor tells which call of the
    source produced it and carries the values interpolated in its
    message. *)

Inductive level := INFO | WARNING | ERROR.

Inductive log_record :=
| LogFound (status : Z) (url : string)       (* _fetch: logger.info *)
| LogFetchError (url : string) (e : string)  (* _fetch: logger.error *)
| LogLoaded (n : nat)                        (* start: logger.info *)
| LogNoEndpoints                             (* _save_results: logger.warning *)
| LogSaved (output_file : string).           (* _save_results: logger.info *)

Definition record_level (r : log_record) : level :=
  match r with
  | LogFound _ _ | LogLoaded _ | LogSaved _ => INFO
  | LogNoEndpoints => WARNING
  | LogFetchError _ _ => ERROR
  end.

(** ** The class [StreamFuzz] *)

(** The attributes set by [__init__].  [self.session] is the connection to
    the network: what it answers is the [outcome] of each request. *)
Record StreamFuzz := mkStreamFuzz {
  base_url : string;
  wordlist : string;
  output_file : string;
  headers : json;
  cookies : json;
  methods : list string;
  valid_status_codes : list Z;
  found_endpoints : gset string
}.

Definition set_found (self : StreamFuzz) (f : gset string) : StreamFuzz :=
  {| base_url := base_url self; wordlist := wordlist self;
     output_file := output_file self; headers := headers self;
     cookies := cookies self; methods := methods self;
     valid_status_codes := valid_status_codes self;
     found_endpoints := f |}.

(** [StreamFuzz.__init__] *)
Definition __init__ (base_url wordlist output_file : string)
    (headers cookies : json) (methods : list string)
    (valid_status_codes : list Z) : StreamFuzz :=
  {| base_url := PyStr.rstrip_char "/" base_url;
     wordlist := wordlist;
     output_file := output_file;
     headers := headers;
     cookies := cookies;
     methods := methods;
     valid_status_codes := valid_status_codes;
     found_endpoints := ∅ |}.

(** What [self.session.request(...)] does inside the [try]: a response
    with a numeric status, or an exception that [except Exception] catches
    (connection refused, timeout, DNS failure, malformed response, ...),
    with its message. *)
Inductive outcome :=
| Response (status : Z)
| Raises (e : string).

(** [f"{self.base_url}/{path.lstrip('/')}"] *)
Definition request_url (self : StreamFuzz) (path : string) : string :=
  base_url self +:+ "/" +:+ PyStr.lstrip_char "/" path.

(** [status in self.valid_status_codes] *)
Definition status_in (status : Z) (codes : list Z) : bool :=
  bool_decide (status ∈ codes).

(** [StreamFuzz._fetch]: the object and the log after the call, and the
    returned value ([None] when the [except] branch ran). *)
Definition _fetch (self : StreamFuzz) (logs : list log_record)
    (path method : string) (o : outcome)
    : StreamFuzz * list log_record * option Z :=
  let url := request_url self path in
  match o with
  | Response status =>
      if status_in status (valid_status_codes self) then
        (set_found self ({[ url ]} ∪ found_endpoints self),
         logs ++ [LogFound status url],
         Some status)
      else (self, logs, Some status)
  | Raises e => (self, logs ++ [LogFetchError url e], None)
  end.

(** ** The dispatcher: [StreamFuzz._process_paths]

    [_process_paths] builds one coroutine [_bound_fetch(path, method)] per
    iteration of the two nested loops and hands them to [asyncio.gather].
    Each coroutine acquires a slot of the semaphore, awaits [_fetch] and
    releases the slot.  The event loop interleaves the coroutines at their
    suspension points only, so a run is a sequence of atomic actions:
    - [Acquire i]: coroutine [i] enters [async with sem] (possible only
      while the semaphore's value is positive), calls [_fetch] and suspends
      on the request;
    - [Complete i]: the request of coroutine [i] ends with the outcome the
      network has for it, the rest of [_fetch] runs, the slot is released.
    [gather] returns once every coroutine has finished. *)

Definition work_list (paths methods : list string) : list (string * string) :=
  flat_map (fun path => map (fun method => (path, method)) methods) paths.

Inductive task_state :=
| Pending                      (* not yet inside [async with sem] *)
| InFlight                     (* inside [_fetch], awaiting the response *)
| Finished (ret : option Z).   (* [_fetch] returned [ret], slot released *)

Record dispatcher := mkDispatcher {
  d_self : StreamFuzz;                           (* the object, mutated by [_fetch] *)
  d_logs : list log_record;                      (* the logger *)
  d_sem : nat;                                   (* value of [sem] *)
  d_tasks : list (string * string * task_state); (* [tasks], with their progress *)
  d_calls : list (string * string)               (* calls of [_fetch] so far *)
}.

Inductive action :=
| Acquire (i : nat)
| Complete (i : nat).

Definition is_pending (t : string * string * task_state) : bool :=
  match t.2 with Pending => true | _ => false end.
Definition is_inflight (t : string * string * task_state) : bool :=
  match t.2 with InFlight => true | _ => false end.
Definition is_finished (t : string * string * task_state) : bool :=
  match t.2 with Finished _ => true | _ => false end.

(** Number of [_fetch] calls outstanding. *)
Definition in_flight (d : dispatcher) : nat :=
  length (filter (fun t => is_inflight t = true) (d_tasks d)).

Section Dispatch.

(** The outcome the network has for the request of the [i]-th work item. *)
Variable net : nat -> outcome.

Definition step (a : action) (d : dispatcher) : option dispatcher :=
  match a with
  | Acquire i =>
      match d_tasks d !! i, d_sem d with
      | Some (path, method, Pending), S n =>
          Some {| d_self := d_self d;
                  d_logs := d_logs d;
                  d_sem := n;
                  d_tasks := <[i := (path, method, InFlight)]> (d_tasks d);
                  d_calls := d_calls d ++ [(path, method)] |}
      | _, _ => None
      end
  | Complete i =>
      match d_tasks d !! i with
      | Some (path, method, InFlight) =>
          let '(self', logs', ret) :=
            _fetch (d_self d) (d_logs d) path method (net i) in
          Some {| d_self := self';
                  d_logs := logs';
                  d_sem := S (d_sem d);
                  d_tasks := <[i := (path, method, Finished ret)]> (d_tasks d);
                  d_calls := d_calls d |}
      | _ => None
      end
  end.

Fixpoint run (schedule : list action) (d : dispatcher) : option dispatcher :=
  match schedule with
  | [] => Some d
  | a :: schedule' =>
      match step a d with
      | Some d' => run schedule' d'
      | None => None
      end
  end.

(** The state in which [gather] is awaited: semaphore of [n] slots, every
    coroutine pending. *)
Definition dispatch_init (n : nat) (self : StreamFuzz)
    (logs : list log_record) (paths : list string) : dispatcher :=
  {| d_self := self;
     d_logs := logs;
     d_sem := n;
     d_tasks := map (fun it => (it, Pending)) (work_list paths (methods self));
     d_calls := [] |}.

(** Awaiting [asyncio.gather] on [tasks] is over when all coroutines are. *)
Definition batch_complete (d : dispatcher) : bool :=
  forallb is_finished (d_tasks d).

(** [_process_paths] under a schedule of the event loop: the state in
    which it returns, [None] if the schedule is not one of its complete
    executions. *)
Definition _process_paths (self : StreamFuzz) (logs : list log_record)
    (paths : list string) (schedule : list action) : option dispatcher :=
  match run schedule (dispatch_init MAX_CONCURRENT_REQUESTS self logs paths) with
  | Some d => if batch_complete d then Some d else None
  | None => None
  end.

End Dispatch.

(** The schedule that runs the coroutines one after the other. *)
Definition sequential_schedule (n : nat) : list action :=
  flat_map (fun i => [Acquire i; Complete i]) (seq 0 n).

(** ** The file system, [_load_wordlist] and [_save_results] *)

(** Regular files only: [os.path.exists(p)] is [is_Some (fs !! p)], and
    [open(p, 'w')], when it succeeds, followed by writes replaces the
    content at [p]. *)
Abbreviation filesystem := (gmap string string).

(** The exceptions that leave the functions of the module: those of
    [input], [json.loads] and [int] in the shell, that of
    [open(path, 'w')], and any other, by the name of its class. *)
Inductive exn :=
| EOFError
| JSONDecodeError
| ValueError
| OSError
| OtherException (name : string).

(** How a call ended: it returned, or an exception left it. *)
Inductive ending :=
| Returned
| Raised (e : exn).

(** [StreamFuzz._load_wordlist], the module-level list of built-in paths
    being a parameter.  [list(set(paths))] keeps one copy of each path, in
    an order the language leaves open; here it is the order of
    [elements]. *)
Definition _load_wordlist_with (common_paths : list string)
    (self : StreamFuzz) (fs : filesystem) : list string :=
  let paths := [] in
  let paths :=
    match fs !! wordlist self with
    | Some content =>
        paths ++ map PyStr.strip
                   (filter (fun line => PyStr.truthy (PyStr.strip line) = true)
                           (PyStr.file_lines content))
    | None => paths
    end in
  let paths := paths ++ common_paths in
  elements (list_to_set paths : gset string).

Definition _load_wordlist : StreamFuzz -> filesystem -> list string :=
  _load_wordlist_with COMMON_PATHS.

(** The order of [sorted] on strings: lexicographic on code points. *)
Definition string_le (s1 s2 : string) : Prop := String.leb s1 s2 = true.

#[global] Instance string_le_dec : RelDecision string_le.
Proof. intros s1 s2. unfold string_le. apply _. Defined.

Definition sorted (l : list string) : list string := merge_sort string_le l.

(** The successive [file.write(f"{endpoint}\n")] on a truncated file. *)
Fixpoint write_lines (endpoints : list string) : string :=
  match endpoints with
  | [] => EmptyString
  | endpoint :: rest => endpoint +:+ LF +:+ write_lines rest
  end.

(** [StreamFuzz._save_results].  Whether [open(path, 'w')] succeeds is the
    environment's [writable] (a missing directory, a directory at the
    path, permissions make it fail); when it raises, nothing catches the
    exception, no file is written and nothing is logged. *)
Definition _save_results (writable : string -> bool) (self : StreamFuzz)
    (logs : list log_record) (fs : filesystem)
    : list log_record * filesystem * ending :=
  if bool_decide (found_endpoints self = ∅) then
    (logs ++ [LogNoEndpoints], fs, Returned)
  else if writable (output_file self) then
    (logs ++ [LogSaved (output_file self)],
     <[output_file self := write_lines (sorted (elements (found_endpoints self)))]> fs,
     Returned)
  else (logs, fs, Raised OSError).

(** [StreamFuzz.start] under a schedule of the event loop: the object, the
    log and the files it leaves, and whether it returned or the exception
    of [_save_results] left it. *)
Definition start (net : nat -> outcome) (writable : string -> bool)
    (self : StreamFuzz) (logs : list log_record) (fs : filesystem)
    (schedule : list action)
    : option (StreamFuzz * list log_record * filesystem * ending) :=
  let paths := _load_wordlist self fs in
  let logs := logs ++ [LogLoaded (length paths)] in
  match _process_paths net self logs paths schedule with
  | Some d =>
      let '(logs', fs', c) := _save_results writable (d_self d) (d_logs d) fs in
      Some (d_self d, logs', fs', c)
  | None => None
  end.

(** ** The shell: [interactive_menu]

    The operator's keyboard is a list of lines, one per call of [input];
    [input] on an exhausted keyboard raises [EOFError].  The loop body
    either goes round with the settings it leaves, breaks, or lets an
    exception escape (nothing in [interactive_menu] catches any).  What
    a run does to the files and the log, and whether it returns, is the
    environment's: the loop passes the world from one run to the next. *)

Record config := mkConfig {
  cfg_base_url : option string;
  cfg_wordlist : string;
  cfg_output_file : string;
  cfg_headers : json;
  cfg_cookies : json;
  cfg_methods : list string;
  cfg_valid_status_codes : list Z
}.

(** The locals of [interactive_menu] before the loop. *)
Definition initial_config : config :=
  {| cfg_base_url := None;
     cfg_wordlist := DEFAULT_WORDLIST;
     cfg_output_file := DEFAULT_OUTPUT;
     cfg_headers := DEFAULT_HEADERS;
     cfg_cookies := DEFAULT_COOKIES;
     cfg_methods := DEFAULT_METHODS;
     cfg_valid_status_codes := VALID_STATUS_CODES |}.

Inductive menu_event :=
| EvMissingTarget                 (* "Please set the target URL ..." *)
| EvStart (fuzzer : StreamFuzz)   (* asyncio.run(fuzzer.start()) *)
| EvUpdated                       (* "Configurations updated." *)
| EvView (cfg : config)           (* the settings as printed by option 3 *)
| EvGoodbye                       (* "Exiting the program. Goodbye!" *)
| EvInvalid.                      (* "Invalid choice. Please try again." *)

Inductive menu_result :=
| Exited
| Uncaught (e : exn).

(** A computation that reads the keyboard and may raise. *)
Definition console (A : Type) : Type := list string -> exn + (A * list string).

Definition ret {A} (x : A) : console A := fun kb => inr (x, kb).
Definition raise {A} (e : exn) : console A := fun _ => inl e.
Definition bind {A B} (m : console A) (k : A -> console B) : console B :=
  fun kb => match m kb with
            | inl e => inl e
            | inr (x, kb') => k x kb'
            end.
Definition input : console string :=
  fun kb => match kb with
            | [] => inl EOFError
            | line :: kb' => inr (line, kb')
            end.

Notation "'do' x <- m ; k" := (bind m (fun x => k))
  (at level 10, x name, m at level 100, k at level 200, only parsing).

(** [s or default] on strings. *)
Definition or_else (s default : string) : string :=
  if PyStr.truthy s then s else default.

Section Menu.

(** [json.loads] and [int] on a string: [None] when they raise. *)
Variable json_loads : string -> option json.
Variable py_int : string -> option Z.

(** [asyncio.run(fuzzer.start())]: the world (network, files, log) after
    the run, and whether the run returned or an exception left it. *)
Context {world : Type}.
Variable run_start : StreamFuzz -> world -> world * ending.

(** The body of [elif choice == '2']. *)
Definition configure (cfg : config) : console config :=
  do url_input <- input;
  let base_url :=
    if PyStr.truthy (PyStr.strip url_input) then Some (PyStr.strip url_input)
    else cfg_base_url cfg in
  do wordlist_input <- input;
  let wordlist := or_else (PyStr.strip wordlist_input) (cfg_wordlist cfg) in
  do output_input <- input;
  let output_file := or_else (PyStr.strip output_input) (cfg_output_file cfg) in
  do line <- input;
  let headers_input := PyStr.strip line in
  do headers <-
    (if PyStr.truthy headers_input then
       match json_loads headers_input with
       | Some v => ret v
       | None => raise JSONDecodeError
       end
     else ret (cfg_headers cfg));
  do line <- input;
  let cookies_input := PyStr.strip line in
  do cookies <-
    (if PyStr.truthy cookies_input then
       match json_loads cookies_input with
       | Some v => ret v
       | None => raise JSONDecodeError
       end
     else ret (cfg_cookies cfg));
  do line <- input;
  let methods_input := PyStr.strip line in
  let methods :=
    if PyStr.truthy methods_input then PyStr.split_char "," methods_input
    else cfg_methods cfg in
  do line <- input;
  let status_codes_input := PyStr.strip line in
  do valid_status_codes <-
    (if PyStr.truthy status_codes_input then
       match mapM py_int (PyStr.split_char "," status_codes_input) with
       | Some codes => ret codes
       | None => raise ValueError
       end
     else ret (cfg_valid_status_codes cfg));
  ret {| cfg_base_url := base_url;
         cfg_wordlist := wordlist;
         cfg_output_file := output_file;
         cfg_headers := headers;
         cfg_cookies := cookies;
         cfg_methods := methods;
         cfg_valid_status_codes := valid_status_codes |}.

Inductive iteration :=
| Next (cfg : config) (w : world) (kb : list string) (evs : list menu_event)
| Stop (w : world) (evs : list menu_event)
| Abort (e : exn) (w : world) (evs : list menu_event).

(** One pass through the body of [while True]. *)
Definition menu_iteration (cfg : config) (w : world) (kb : list string)
    : iteration :=
  match input kb with
  | inl e => Abort e w []
  | inr (line, kb) =>
      let choice := PyStr.strip line in
      if String.eqb choice "1" then
        match cfg_base_url cfg with
        | None => Next cfg w kb [EvMissingTarget]
        | Some base_url =>
            if PyStr.truthy base_url then
              let fuzzer :=
                __init__ base_url (cfg_wordlist cfg) (cfg_output_file cfg)
                  (cfg_headers cfg) (cfg_cookies cfg) (cfg_methods cfg)
                  (cfg_valid_status_codes cfg) in
              match run_start fuzzer w with
              | (w', Returned) => Next cfg w' kb [EvStart fuzzer]
              | (w', Raised e) => Abort e w' [EvStart fuzzer]
              end
            else Next cfg w kb [EvMissingTarget]
        end
      else if String.eqb choice "2" then
        match configure cfg kb with
        | inl e => Abort e w []
        | inr (cfg', kb') => Next cfg' w kb' [EvUpdated]
        end
      else if String.eqb choice "3" then
        match input kb with
        | inl e => Abort e w [EvView cfg]
        | inr (_, kb') => Next cfg w kb' [EvView cfg]
        end
      else if String.eqb choice "4" then Stop w [EvGoodbye]
      else Next cfg w kb [EvInvalid]
  end.

(** The loop; [fuel] bounds the number of passes. *)
Fixpoint menu_loop (fuel : nat) (cfg : config) (w : world) (kb : list string)
    : list menu_event * menu_result * world :=
  match fuel with
  | O => ([], Uncaught EOFError, w)
  | S fuel' =>
      match menu_iteration cfg w kb with
      | Next cfg' w' kb' evs =>
          let '(evs', r, w'') := menu_loop fuel' cfg' w' kb' in
          (evs ++ evs', r, w'')
      | Stop w' evs => (evs, Exited, w')
      | Abort e w' evs => (evs, Uncaught e, w')
      end
  end.

(** Every pass reads at least the choice, so one more pass than there
    are lines is never needed. *)
Definition interactive_menu (w : world) (kb : list string)
    : list menu_event * menu_result * world :=
  menu_loop (S (length kb)) initial_config w kb.

(** Entries of option 2 that make [json.loads] or [int] raise, with the
    exception raised. *)
Definition accepts_json (line : string) : Prop :=
  PyStr.truthy (PyStr.strip line) = false
  \/ is_Some (json_loads (PyStr.strip line)).

Definition rejects_json (line : string) : Prop :=
  PyStr.truthy (PyStr.strip line) = true
  /\ json_loads (PyStr.strip line) = None.

Definition rejects_codes (line : string) : Prop :=
  PyStr.truthy (PyStr.strip line) = true
  /\ mapM py_int (PyStr.split_char "," (PyStr.strip line)) = None.

Inductive malformed : list string -> exn -> Prop :=
| malformed_headers c u w o h kb :
    PyStr.strip c = "2" -> rejects_json h ->
    malformed (c :: u :: w :: o :: h :: kb) JSONDecodeError
| malformed_cookies c u w o h k kb :
    PyStr.strip c = "2" -> accepts_json h -> rejects_json k ->
    malformed (c :: u :: w :: o :: h :: k :: kb) JSONDecodeError
| malformed_codes c u w o h k m s kb :
    PyStr.strip c = "2" -> accepts_json h -> accepts_json k ->
    rejects_codes s ->
    malformed (c :: u :: w :: o :: h :: k :: m :: s :: kb) ValueError.

End Menu.

(** ** Vocabulary of the statements *)

(** A run of [k] copies of a character. *)
Fixpoint repeat_char (c : ascii) (k : nat) : string :=
  match k with
  | O => EmptyString
  | S k' => String c (repeat_char c k')
  end.

(** Whether a character occurs in a string. *)
Fixpoint contains_char (c : ascii) (s : string) : bool :=
  match s with
  | EmptyString => false
  | String c' s' => Ascii.eqb c' c || contains_char c s'
  end.

(** Whether the outcome of a request makes [_fetch] record the URL, and
    what [_fetch] returns for it. *)
Definition accepted (self : StreamFuzz) (o : outcome) : bool :=
  match o with
  | Response status => status_in status (valid_status_codes self)
  | Raises _ => false
  end.

Definition returned (o : outcome) : option Z :=
  match o with
  | Response status => Some status
  | Raises _ => None
  end.

(** The coroutine has entered [async with sem]. *)
Definition started (t : string * string * task_state) : Prop :=
  is_pending t = false.

#[global] Instance started_dec t : Decision (started t).
Proof. unfold started. apply _. Defined.

Section DispatchInvariants.

Variable net : nat -> outcome.

(** The two kinds of step, as a relation. *)
Inductive step_spec (d : dispatcher) : dispatcher -> Prop :=
| step_acquire i path method n :
    d_tasks d !! i = Some (path, method, Pending) ->
    d_sem d = S n ->
    step_spec d
      {| d_self := d_self d; d_logs := d_logs d; d_sem := n;
         d_tasks := <[i := (path, method, InFlight)]> (d_tasks d);
         d_calls := d_calls d ++ [(path, method)] |}
| step_complete i path method :
    d_tasks d !! i = Some (path, method, InFlight) ->
    let r := _fetch (d_self d) (d_logs d) path method (net i) in
    step_spec d
      {| d_self := r.1.1; d_logs := r.1.2; d_sem := S (d_sem d);
         d_tasks := <[i := (path, method, Finished r.2)]> (d_tasks d);
         d_calls := d_calls d |}.

(** The settings of the object are those [self0] has. *)
Definition same_settings (self0 self : StreamFuzz) : Prop :=
  base_url self = base_url self0
  /\ valid_status_codes self = valid_status_codes self0
  /\ methods self = methods self0
  /\ output_file self = output_file self0
  /\ wordlist self = wordlist self0.

(** [u] is the URL of a finished work item whose outcome was accepted. *)
Definition discovered (self0 : StreamFuzz)
    (tasks : list (string * string * task_state)) (u : string) : Prop :=
  exists i path method ret,
    tasks !! i = Some (path, method, Finished ret)
    /\ request_url self0 path = u
    /\ accepted self0 (net i) = true.

(** The discovered set is what the object started with and what the
    finished work items discovered. *)
Definition found_inv (self0 : StreamFuzz) (d : dispatcher) : Prop :=
  same_settings self0 (d_self d)
  /\ forall u, u ∈ found_endpoints (d_self d)
               <-> u ∈ found_endpoints self0 \/ discovered self0 (d_tasks d) u.

(** What a finished coroutine leaves behind: the value [_fetch] returned
    and, for a failed request, its error in the log. *)
Definition finished_inv (self0 : StreamFuzz) (d : dispatcher) : Prop :=
  same_settings self0 (d_self d)
  /\ forall i path method ret,
       d_tasks d !! i = Some (path, method, Finished ret) ->
       ret = returned (net i)
       /\ forall e, net i = Raises e ->
                    LogFetchError (request_url self0 path) e ∈ d_logs d.

(** Two steps are left for a pending coroutine, one for a call in flight. *)
Definition steps_left (d : dispatcher) : nat :=
  2 * length (filter (fun t => is_pending t = true) (d_tasks d))
  + in_flight d.

End DispatchInvariants.

(** The network [net] with a transport error injected for the work items
    whose position is in [failing]. *)
Definition inject_failures (failing : gset nat) (e : string)
    (net : nat -> outcome) : nat -> outcome :=
  fun i => if decide (i ∈ failing) then Raises e else net i.

(** The candidate set read to the letter of the specification: the lines
    of the file as they stand
    (without their line terminator), the blank ones left out, together
    with the built-in list. *)
Definition text_lines (content : string) : list string :=
  map (PyStr.rstrip_char "010") (PyStr.file_lines content).

Definition stated_candidates (common_paths : list string)
    (file : option string) : gset string :=
  list_to_set
    (match file with
     | Some content =>
         filter (fun line => PyStr.truthy (PyStr.strip line) = true)
                (text_lines content)
     | None => []
     end ++ common_paths).

(** ** Further vocabulary: the log of a batch, [str.join] *)

(** The records one call of [_fetch] appends to the log: one for an
    accepted response, one for a request that raised, none for a response
    whose status is not accepted. *)
Definition fetch_records (self : StreamFuzz) (path : string) (o : outcome)
    : list log_record :=
  match o with
  | Response status =>
      if status_in status (valid_status_codes self)
      then [LogFound status (request_url self path)]
      else []
  | Raises e => [LogFetchError (request_url self path) e]
  end.

(** The records owed to the coroutines that have finished. *)
Definition task_records (self0 : StreamFuzz) (net : nat -> outcome) (i : nat)
    (t : string * string * task_state) : list log_record :=
  match t.2 with
  | Finished _ => fetch_records self0 t.1.1 (net i)
  | _ => []
  end.

Definition batch_records (self0 : StreamFuzz) (net : nat -> outcome)
    (tasks : list (string * string * task_state)) : list log_record :=
  concat (imap (task_records self0 net) tasks).

(** The records owed to a whole work list. *)
Definition expected_records (self0 : StreamFuzz) (net : nat -> outcome)
    (items : list (string * string)) : list log_record :=
  concat (imap (fun i it => fetch_records self0 it.1 (net i)) items).

(** [sep.join(pieces)] *)
Fixpoint py_join (sep : string) (pieces : list string) : string :=
  match pieces with
  | [] => EmptyString
  | p :: rest =>
      match rest with
      | [] => p
      | _ => p +:+ sep +:+ py_join sep rest
      end
  end.

(** The object option 1 builds from the settings. *)
Definition fuzzer_of (cfg : config) (b : string) : StreamFuzz :=
  __init__ b (cfg_wordlist cfg) (cfg_output_file cfg) (cfg_headers cfg)
    (cfg_cookies cfg) (cfg_methods cfg) (cfg_valid_status_codes cfg).

(** A line on which the operator only pressed Enter (or typed blanks). *)
Definition blank (line : string) : Prop :=
  PyStr.truthy (PyStr.strip line) = false.

(** A string that does not begin with a stripped character. *)
Definition head_kept (P : ascii -> bool) (s : string) : Prop :=
  match s with
  | EmptyString => True
  | String c _ => P c = false
  end.

(** The object keeps its settings, and the log is the initial one followed
    by the records of the finished coroutines, in the order they ended. *)
Definition log_inv (net : nat -> outcome) (self0 : StreamFuzz)
    (logs0 : list log_record) (d : dispatcher) : Prop :=
  d_self d = set_found self0 (found_endpoints (d_self d))
  /\ exists recs,
       d_logs d = logs0 ++ recs
       /\ recs ≡ₚ batch_records self0 net (d_tasks d).

(** A line as the iteration on a text file yields it: no line feed, except
    possibly as its last character. *)
Definition lf_last (line : string) : Prop :=
  exists body,
    contains_char "010" body = false
    /\ (line = body \/ line = body +:+ LF).

(** ** Sample data *)

Definition sample_fuzzer : StreamFuzz :=
  __init__ "http://t/" DEFAULT_WORDLIST DEFAULT_OUTPUT DEFAULT_HEADERS
    DEFAULT_COOKIES DEFAULT_METHODS VALID_STATUS_CODES.

(** A small batch: two candidates, two methods, one request that times
    out, one 404, and an interleaved schedule. *)
Definition sample_net (i : nat) : outcome :=
  match i with
  | 0%nat => Response 200
  | 1%nat => Raises "timeout"
  | 2%nat => Response 404
  | _ => Response 401
  end.

Definition sample_dispatcher_self : StreamFuzz :=
  __init__ "http://t/" DEFAULT_WORDLIST DEFAULT_OUTPUT DEFAULT_HEADERS
    DEFAULT_COOKIES ["HEAD"; "GET"] VALID_STATUS_CODES.

Definition sample_paths : list string := ["admin"; "/login"].

Definition sample_schedule : list action :=
  [Acquire 2; Acquire 0; Complete 0; Acquire 3; Acquire 1; Complete 3;
   Complete 1; Complete 2].

Definition sample_returned : dispatcher :=
  default (dispatch_init 0 sample_dispatcher_self [] sample_paths)
    (_process_paths sample_net sample_dispatcher_self [] sample_paths
       sample_schedule).

(** The batch after the first two steps of the schedule. *)
Definition sample_in_flight : dispatcher :=
  default (dispatch_init 0 sample_dispatcher_self [] sample_paths)
    (run sample_net [Acquire 2; Acquire 0]
       (dispatch_init MAX_CONCURRENT_REQUESTS sample_dispatcher_self []
          sample_paths)).

Definition sample_injected : dispatcher :=
  default (dispatch_init 0 sample_dispatcher_self [] sample_paths)
    (_process_paths (inject_failures {[ 0%nat ]} "refused" sample_net)
       sample_dispatcher_self [] sample_paths (sequential_schedule 4)).

(** A whole run: no wordlist file, every built-in path answers 200. *)
Definition sample_run : option (StreamFuzz * list log_record * filesystem) :=
  match start (fun _ => Response 200) (fun _ => true) sample_fuzzer [] ∅
          (sequential_schedule 5) with
  | Some (self', logs', fs', Returned) => Some (self', logs', fs')
  | _ => None
  end.

(** An environment for the examples: every request answers 200, the
    requests are served one after the other (a complete execution of each
    batch of the examples, so that the last branch below is not taken),
    and no file can be opened under the directory [nodir], which does not
    exist. *)
Definition sample_writable (path : string) : bool :=
  negb (String.prefix "nodir/" path).

Definition sample_world : Type := list log_record * filesystem.

Definition sample_run_start (fuzzer : StreamFuzz) (w : sample_world)
    : sample_world * ending :=
  let n := length (work_list (_load_wordlist fuzzer w.2) (methods fuzzer)) in
  match start (fun _ => Response 200) sample_writable fuzzer w.1 w.2
          (sequential_schedule n) with
  | Some (_, logs', fs', c) => ((logs', fs'), c)
  | None => (w, Returned)
  end.

(** A session whose run cannot open its output file. *)
Definition sample_keyboard_unwritable : list string :=
  ["2"; "http://t/"; EmptyString; "nodir/out.txt"; EmptyString; EmptyString;
   EmptyString; EmptyString; "1"; "4"].

Definition sample_found : StreamFuzz :=
  set_found sample_fuzzer {[ "http://t/b"; "http://t/a" ]}.

(** The same discoveries, to be saved where no file can be opened. *)
Definition sample_unwritable : StreamFuzz :=
  set_found
    (__init__ "http://t/" DEFAULT_WORDLIST "nodir/out.txt" DEFAULT_HEADERS
       DEFAULT_COOKIES DEFAULT_METHODS VALID_STATUS_CODES)
    {[ "http://t/b"; "http://t/a" ]}.

Definition sample_fs : filesystem :=
  {[ DEFAULT_OUTPUT := "http://old/" +:+ LF; "notes.txt" := "keep" ]}.

(** Stand-ins for [json.loads] and [int], enough to run the menu on
    examples: the empty object only, and unsigned decimal numerals. *)
Definition sample_json_loads (s : string) : option json :=
  if String.eqb s "{}" then Some (JObject []) else None.

Fixpoint digits_value (s : string) (acc : Z) : option Z :=
  match s with
  | EmptyString => Some acc
  | String c s' =>
      let n := Z.of_nat (nat_of_ascii c) in
      if ((48 <=? n) && (n <=? 57))%Z
      then digits_value s' (10 * acc + (n - 48))
      else None
  end.

Definition sample_int (s : string) : option Z :=
  match s with
  | EmptyString => None
  | _ => digits_value s 0
  end.

(** A keyboard session: a start without target, a configuration, a run, a
    wrong choice, the exit. *)
Definition sample_keyboard : list string :=
  ["1"; " 2 "; "http://t/"; EmptyString; "out.txt"; EmptyString; "{}";
   "GET,HEAD"; "200,404"; "1"; "9"; "4"].

(** The settings after a first configuration giving a target and a
    method. *)
Definition sample_configured : config :=
  {| cfg_base_url := Some "http://t/";
     cfg_wordlist := DEFAULT_WORDLIST;
     cfg_output_file := DEFAULT_OUTPUT;
     cfg_headers := DEFAULT_HEADERS;
     cfg_cookies := DEFAULT_COOKIES;
     cfg_methods := ["GET"];
     cfg_valid_status_codes := VALID_STATUS_CODES |}.

(** * Properties *)

(** Settle a closed decidable goal by evaluating its decision procedure. *)
Ltac compute_decide :=
  match goal with
  | |- ?P => apply (bool_decide_unpack P); vm_compute; exact I
  end.

(** ** The embedding on examples *)

Example strip_ex : PyStr.strip ("  /admin " +:+ LF) = "/admin".
Proof. reflexivity. Qed.

Example split_ex :
  PyStr.split_char "," "GET,,HEAD" = ["GET"; EmptyString; "HEAD"].
Proof. reflexivity. Qed.

Example lines_ex :
  PyStr.file_lines ("x" +:+ LF +:+ LF +:+ "admin")
  = ["x" +:+ LF; LF; "admin"].
Proof. reflexivity. Qed.

Example save_ex :
  (_save_results (fun _ => true)
     (set_found (__init__ "http://t/" "w" "out" DEFAULT_HEADERS DEFAULT_COOKIES
                   DEFAULT_METHODS VALID_STATUS_CODES)
                {[ "http://t/b"; "http://t/a" ]})
     [] ∅).1.2 !! "out"
  = Some ("http://t/a" +:+ LF +:+ "http://t/b" +:+ LF).
Proof. vm_compute. reflexivity. Qed.

Example load_ex :
  list_to_set (_load_wordlist_with ["admin"; "login"]
     (__init__ "http://t/" "w" "out" DEFAULT_HEADERS DEFAULT_COOKIES
        DEFAULT_METHODS VALID_STATUS_CODES)
     {[ "w" := "x" +:+ LF +:+ LF +:+ "admin" +:+ LF ]})
  = ({[ "x"; "admin"; "login" ]} : gset string).
Proof. vm_compute. reflexivity. Qed.

(** ** Stripping *)

Lemma append_cons c s t : String c s +:+ t = String c (s +:+ t).
Proof. reflexivity. Qed.

Lemma append_nil t : EmptyString +:+ t = t.
Proof. reflexivity. Qed.

Lemma is_char_true a c : PyStr.is_char a c = true <-> c = a.
Proof.
  unfold PyStr.is_char. rewrite Ascii.eqb_eq. split; congruence.
Qed.

Lemma lstrip_char_split a s :
  exists k, s = repeat_char a k +:+ PyStr.lstrip_char a s.
Proof.
  unfold PyStr.lstrip_char.
  induction s as [|c s IH]; simpl.
  - exists O. reflexivity.
  - destruct (PyStr.is_char a c) eqn:E.
    + apply is_char_true in E. subst c.
      destruct IH as [k Hk]. exists (S k). simpl.
      rewrite append_cons. congruence.
    + exists O. reflexivity.
Qed.

Lemma lstrip_char_head a s :
  PyStr.head_char (PyStr.lstrip_char a s) <> Some a.
Proof.
  unfold PyStr.lstrip_char.
  induction s as [|c s IH]; simpl; [discriminate|].
  destruct (PyStr.is_char a c) eqn:E; [exact IH|].
  simpl. intros [= ->].
  assert (PyStr.is_char a a = true) by (apply is_char_true; reflexivity).
  congruence.
Qed.

Lemma rstrip_char_split a s :
  exists k, s = PyStr.rstrip_char a s +:+ repeat_char a k.
Proof.
  unfold PyStr.rstrip_char.
  induction s as [|c s IH]; simpl.
  - exists O. reflexivity.
  - destruct IH as [k Hk].
    destruct (PyStr.rstrip_by (PyStr.is_char a) s) as [|c' r] eqn:Er.
    + destruct (PyStr.is_char a c) eqn:E.
      * apply is_char_true in E. subst c. exists (S k).
        rewrite append_nil in *. simpl. congruence.
      * exists k. rewrite append_nil in Hk. rewrite append_cons, append_nil.
        congruence.
    + exists k. rewrite append_cons. congruence.
Qed.

Lemma rstrip_char_last a s :
  PyStr.last_char (PyStr.rstrip_char a s) <> Some a.
Proof.
  unfold PyStr.rstrip_char.
  induction s as [|c s IH]; simpl; [discriminate|].
  destruct (PyStr.rstrip_by (PyStr.is_char a) s) as [|c' r] eqn:Er.
  - destruct (PyStr.is_char a c) eqn:E; simpl; [discriminate|].
    intros [= ->].
    assert (PyStr.is_char a a = true) by (apply is_char_true; reflexivity).
    congruence.
  - exact IH.
Qed.

(** C8. The request URL is the target without its trailing separators, one
    separator, and the candidate without its leading separators: the
    stripped target is the target up to a run of separators and does not
    end with one, the stripped candidate is the candidate after a run of
    separators and does not start with one.  Targets [http://t] and
    [http://t/] with candidates [admin] and [/admin] all give
    [http://t/admin]. *)
Theorem request_url_normalised :
  forall (target candidate w o : string) (h c : json) (ms : list string)
         (vs : list Z),
    let self := __init__ target w o h c ms vs in
    let t := PyStr.rstrip_char "/" target in
    let p := PyStr.lstrip_char "/" candidate in
    request_url self candidate = t +:+ "/" +:+ p
    /\ (exists k, target = t +:+ repeat_char "/" k)
    /\ PyStr.last_char t <> Some "/"%char
    /\ (exists k, candidate = repeat_char "/" k +:+ p)
    /\ PyStr.head_char p <> Some "/"%char
    /\ request_url (__init__ "http://t" w o h c ms vs) "admin" = "http://t/admin"
    /\ request_url (__init__ "http://t" w o h c ms vs) "/admin" = "http://t/admin"
    /\ request_url (__init__ "http://t/" w o h c ms vs) "admin" = "http://t/admin"
    /\ request_url (__init__ "http://t/" w o h c ms vs) "/admin" = "http://t/admin".
Proof.
  intros target candidate w o h c ms vs self t p.
  split; [reflexivity|].
  split; [apply rstrip_char_split|].
  split; [apply rstrip_char_last|].
  split; [apply lstrip_char_split|].
  split; [apply lstrip_char_head|].
  repeat split; reflexivity.
Qed.

(** ** The request executor [_fetch] *)

Lemma status_in_spec status codes :
  status_in status codes = true <-> status ∈ codes.
Proof. unfold status_in. apply bool_decide_eq_true. Qed.

Lemma status_in_false status codes :
  status_in status codes = false <-> status ∉ codes.
Proof. unfold status_in. apply bool_decide_eq_false. Qed.

(** The default policy is 200..299 together with 401 and 403. *)
Lemma VALID_STATUS_CODES_spec (s : Z) :
  s ∈ VALID_STATUS_CODES <-> (200 <= s <= 299 \/ s = 401 \/ s = 403).
Proof.
  unfold VALID_STATUS_CODES.
  rewrite elem_of_app, list_elem_of_In, in_map_iff.
  split.
  - intros [(k & <- & Hk) | H].
    + apply in_seq in Hk. left. lia.
    + right. apply list_elem_of_In in H. simpl in H. lia.
  - intros [H | H].
    + left. exists (Z.to_nat (s - 200)). split; [lia|].
      apply in_seq. lia.
    + right. apply list_elem_of_In. simpl. lia.
Qed.

Lemma fetch_response_found self logs path method status :
  found_endpoints (_fetch self logs path method (Response status)).1.1
  = if status_in status (valid_status_codes self)
    then {[ request_url self path ]} ∪ found_endpoints self
    else found_endpoints self.
Proof.
  unfold _fetch. destruct (status_in _ _); reflexivity.
Qed.

Lemma fetch_raises self logs path method e :
  _fetch self logs path method (Raises e)
  = (self, logs ++ [LogFetchError (request_url self path) e], None).
Proof. reflexivity. Qed.

(** [_fetch] never touches the settings of the object. *)
Lemma fetch_settings self logs path method o :
  let self' := (_fetch self logs path method o).1.1 in
  base_url self' = base_url self
  /\ valid_status_codes self' = valid_status_codes self
  /\ methods self' = methods self
  /\ output_file self' = output_file self
  /\ wordlist self' = wordlist self.
Proof.
  unfold _fetch. destruct o as [status|e]; simpl; [|done].
  destruct (status_in _ _); done.
Qed.

Lemma fetch_found_mono self logs path method o :
  found_endpoints self ⊆ found_endpoints (_fetch self logs path method o).1.1.
Proof.
  unfold _fetch. destruct o as [status|e]; simpl; [|done].
  destruct (status_in _ _); simpl; set_solver.
Qed.

(** C5. When a response completes, the URL joins the discovered set exactly
    when its status is in the acceptance policy of the object; the default
    policy is 200..299, 401 and 403, so that under it a 404 leaves the set
    as it was and a 401 puts the URL in. *)
Theorem fetch_discovers_iff_accepted :
  forall (self : StreamFuzz) (logs : list log_record) (path method : string)
         (status : Z),
    let url := request_url self path in
    let found' st :=
      found_endpoints (_fetch self logs path method (Response st)).1.1 in
    (status ∈ valid_status_codes self ->
       found' status = {[ url ]} ∪ found_endpoints self)
    /\ (status ∉ valid_status_codes self ->
       found' status = found_endpoints self)
    /\ (url ∉ found_endpoints self ->
       (url ∈ found' status <-> status ∈ valid_status_codes self))
    /\ (forall s : Z,
         s ∈ VALID_STATUS_CODES <-> (200 <= s <= 299 \/ s = 401 \/ s = 403))
    /\ (valid_status_codes self = VALID_STATUS_CODES ->
         found' 404 = found_endpoints self /\ url ∈ found' 401).
Proof.
  intros self logs path method status url found'. subst found'. cbv beta.
  repeat split.
  - intros H. rewrite fetch_response_found.
    apply status_in_spec in H. by rewrite H.
  - intros H. rewrite fetch_response_found.
    apply status_in_false in H. by rewrite H.
  - rewrite fetch_response_found.
    destruct (status_in _ _) eqn:E.
    + intros _. by apply status_in_spec.
    + intros Hin. contradiction.
  - rewrite fetch_response_found.
    destruct (status_in _ _) eqn:E.
    + intros _. set_solver.
    + intros Hin. apply status_in_false in E. contradiction.
  - apply VALID_STATUS_CODES_spec.
  - apply VALID_STATUS_CODES_spec.
  - rewrite fetch_response_found.
    assert (E : status_in 404 (valid_status_codes self) = false).
    { apply status_in_false. rewrite H, VALID_STATUS_CODES_spec. lia. }
    by rewrite E.
  - rewrite fetch_response_found.
    assert (E : status_in 401 (valid_status_codes self) = true).
    { apply status_in_spec. rewrite H, VALID_STATUS_CODES_spec. lia. }
    rewrite E. set_solver.
Qed.

Lemma fetch_discovers_iff_accepted_witness :
  found_endpoints (_fetch sample_fuzzer [] "/admin" "HEAD" (Response 204)).1.1
    = {[ "http://t/admin" ]} ∪ ∅
  /\ found_endpoints (_fetch sample_fuzzer [] "/admin" "HEAD" (Response 500)).1.1
    = ∅
  /\ ("http://t/admin"
        ∈ found_endpoints
            (_fetch sample_fuzzer [] "/admin" "HEAD" (Response 204)).1.1
      <-> 204 ∈ VALID_STATUS_CODES)
  /\ found_endpoints (_fetch sample_fuzzer [] "/admin" "HEAD" (Response 404)).1.1
    = ∅
  /\ "http://t/admin"
       ∈ found_endpoints (_fetch sample_fuzzer [] "/admin" "HEAD" (Response 401)).1.1.
Proof.
  pose proof (fetch_discovers_iff_accepted sample_fuzzer [] "/admin" "HEAD" 204)
    as (Hin & _ & Hiff & _ & Hdef).
  pose proof (fetch_discovers_iff_accepted sample_fuzzer [] "/admin" "HEAD" 500)
    as (_ & Hout & _).
  split.
  { apply Hin. change (204 ∈ VALID_STATUS_CODES).
    apply VALID_STATUS_CODES_spec. lia. }
  split.
  { apply Hout. change (500 ∉ VALID_STATUS_CODES).
    rewrite VALID_STATUS_CODES_spec. lia. }
  split.
  { apply Hiff. apply not_elem_of_empty. }
  exact (Hdef eq_refl).
Defined.

(** C10. [_fetch] returns the status of every response that completes,
    accepted or not (a 404 under the default policy included), and returns
    [None] when the request raises. *)
Theorem fetch_returns_status :
  forall (self : StreamFuzz) (logs : list log_record) (path method : string),
    (forall status : Z,
       (_fetch self logs path method (Response status)).2 = Some status)
    /\ (forall e : string,
       (_fetch self logs path method (Raises e)).2 = None)
    /\ (_fetch sample_fuzzer logs path method (Response 404)).2 = Some 404
    /\ found_endpoints (_fetch sample_fuzzer logs path method (Response 404)).1.1
       = ∅.
Proof.
  intros self logs path method. repeat split.
  intros status. unfold _fetch. destruct (status_in _ _); reflexivity.
Qed.

(** ** The dispatcher: steps and invariants *)

Lemma insert_middle {A} (l : list A) (i : nat) (y x : A) :
  l !! i = Some y ->
  exists l1 l2, l = l1 ++ y :: l2 /\ <[i:=x]> l = l1 ++ x :: l2 /\ length l1 = i.
Proof.
  intros Hi. exists (take i l), (drop (S i) l).
  pose proof (lookup_lt_Some _ _ _ Hi) as Hlt.
  split; [symmetry; by apply take_drop_middle|].
  split; [by apply insert_take_drop|].
  rewrite length_take. lia.
Qed.

Lemma filter_length_middle {A} (P : A -> Prop) `{forall x, Decision (P x)}
    (l1 l2 : list A) (x : A) :
  length (filter P (l1 ++ x :: l2))
  = (length (filter P l1) + (if decide (P x) then 1 else 0)
     + length (filter P l2))%nat.
Proof.
  rewrite filter_app, filter_cons, length_app.
  destruct (decide (P x)); simpl; lia.
Qed.

Lemma fetch_found self logs path method o :
  found_endpoints (_fetch self logs path method o).1.1
  = if accepted self o
    then {[ request_url self path ]} ∪ found_endpoints self
    else found_endpoints self.
Proof.
  destruct o as [status|e]; [apply fetch_response_found | reflexivity].
Qed.

Lemma fetch_ret self logs path method o :
  (_fetch self logs path method o).2 = returned o.
Proof.
  destruct o as [status|e]; [|reflexivity].
  unfold _fetch. destruct (status_in _ _); reflexivity.
Qed.

Lemma elem_of_add_if (b : bool) (x u : string) (X : gset string) :
  u ∈ (if b then {[ x ]} ∪ X else X) <-> (b = true /\ u = x) \/ u ∈ X.
Proof.
  destruct b.
  - rewrite elem_of_union, elem_of_singleton. intuition.
  - intuition congruence.
Qed.

Section DispatchProps.

Variable net : nat -> outcome.

Lemma step_inv a d d' : step net a d = Some d' -> step_spec net d d'.
Proof.
  destruct a as [i|i]; simpl.
  - destruct (d_tasks d !! i) as [[[path method] [| |ret]]|] eqn:Hi;
      try discriminate.
    destruct (d_sem d) as [|n] eqn:Hs; [discriminate|].
    intros [= <-]. by eapply step_acquire.
  - destruct (d_tasks d !! i) as [[[path method] [| |ret]]|] eqn:Hi;
      try discriminate.
    pose proof (step_complete net d i path method Hi) as Hc.
    destruct (_fetch (d_self d) (d_logs d) path method (net i))
      as [[self' logs'] ret] eqn:Hf.
    intros [= <-]. exact Hc.
Qed.

Lemma step_spec_enabled d d' : step_spec net d d' -> exists a, step net a d = Some d'.
Proof.
  intros [i path method n Hi Hs | i path method Hi r].
  - exists (Acquire i). simpl. by rewrite Hi, Hs.
  - exists (Complete i). simpl. rewrite Hi. subst r.
    by destruct (_fetch (d_self d) (d_logs d) path method (net i))
      as [[self' logs'] ret].
Qed.

Lemma run_app s1 s2 d :
  run net (s1 ++ s2) d
  = match run net s1 d with Some d' => run net s2 d' | None => None end.
Proof.
  revert d. induction s1 as [|a s1 IH]; intros d; simpl; [done|].
  destruct (step net a d); [apply IH | done].
Qed.

(** A property kept by every step holds along every run. *)
Lemma run_invariant (P : dispatcher -> Prop) :
  (forall d d', P d -> step_spec net d d' -> P d') ->
  forall schedule d d', P d -> run net schedule d = Some d' -> P d'.
Proof.
  intros Hstep schedule.
  induction schedule as [|a schedule IH]; intros d d' HP; simpl.
  - intros [= <-]. exact HP.
  - destruct (step net a d) as [d1|] eqn:Ha; [|discriminate].
    apply IH. eapply Hstep; [exact HP|]. by eapply step_inv.
Qed.

(** *** The work items never change *)

Lemma step_items d d' :
  step_spec net d d' -> map fst (d_tasks d') = map fst (d_tasks d).
Proof.
  intros [i path method n Hi Hs | i path method Hi r]; simpl;
    rewrite list_fmap_insert; simpl;
    apply list_insert_id; rewrite list_lookup_fmap, Hi; reflexivity.
Qed.

(** *** Slots: the semaphore's value plus the calls in flight *)

Lemma step_slots d d' :
  step_spec net d d' ->
  (d_sem d' + in_flight d' = d_sem d + in_flight d)%nat.
Proof.
  unfold in_flight.
  intros [i path method n Hi Hs | i path method Hi r]; simpl.
  - destruct (insert_middle (d_tasks d) i _ (path, method, InFlight) Hi)
      as (l1 & l2 & E & -> & _).
    rewrite E, Hs, !filter_length_middle.
    repeat case_decide; try done; simpl in *; lia.
  - destruct (insert_middle (d_tasks d) i _ (path, method, Finished r.2) Hi)
      as (l1 & l2 & E & -> & _).
    rewrite E, !filter_length_middle.
    repeat case_decide; try done; simpl in *; lia.
Qed.

(** *** Calls of [_fetch]: one per coroutine that left [Pending] *)

Lemma step_calls d d' :
  step_spec net d d' ->
  d_calls d ≡ₚ map fst (filter started (d_tasks d)) ->
  d_calls d' ≡ₚ map fst (filter started (d_tasks d')).
Proof.
  intros [i path method n Hi Hs | i path method Hi r] IH; simpl.
  - destruct (insert_middle (d_tasks d) i _ (path, method, InFlight) Hi)
      as (l1 & l2 & E & -> & _).
    rewrite E in IH.
    rewrite filter_app, filter_cons_False, fmap_app in IH by (by intros ?).
    rewrite filter_app, filter_cons_True, fmap_app, fmap_cons by done.
    simpl. etrans; [apply Permutation_app_comm|].
    etrans; [|apply Permutation_middle].
    simpl. by constructor.
  - destruct (insert_middle (d_tasks d) i _ (path, method, Finished r.2) Hi)
      as (l1 & l2 & E & -> & _).
    rewrite E in IH.
    rewrite filter_app, filter_cons_True, fmap_app, fmap_cons in IH by done.
    rewrite filter_app, filter_cons_True, fmap_app, fmap_cons by done.
    exact IH.
Qed.

(** *** The settings, the discovered set, the finished coroutines *)

Lemma step_settings self0 d d' :
  step_spec net d d' ->
  same_settings self0 (d_self d) -> same_settings self0 (d_self d').
Proof.
  intros [i path method n Hi Hs | i path method Hi r]; simpl; [done|].
  intros (H1 & H2 & H3 & H4 & H5).
  destruct (fetch_settings (d_self d) (d_logs d) path method (net i))
    as (F1 & F2 & F3 & F4 & F5).
  subst r. unfold same_settings. by rewrite F1, F2, F3, F4, F5.
Qed.

Lemma request_url_settings self0 self path :
  same_settings self0 self -> request_url self path = request_url self0 path.
Proof. intros (H & _). unfold request_url. by rewrite H. Qed.

Lemma accepted_settings self0 self o :
  same_settings self0 self -> accepted self o = accepted self0 o.
Proof. intros (_ & H & _). destruct o; simpl; by rewrite ?H. Qed.

Lemma step_found self0 d d' :
  step_spec net d d' -> found_inv net self0 d -> found_inv net self0 d'.
Proof.
  intros Hstep [Hset Hfound].
  split; [by eapply step_settings|].
  destruct Hstep as [i path method n Hi Hs | i path method Hi r]; simpl.
  - intros u. rewrite Hfound. apply or_iff_compat_l.
    split; intros (j & p & m & ret & Hj & Hu & Hacc);
      exists j, p, m, ret; (split; [|done]).
    + rewrite list_lookup_insert_ne; [done|]. intros ->. congruence.
    + destruct (decide (i = j)) as [->|Hne].
      * rewrite list_lookup_insert_eq in Hj
          by (by eapply lookup_lt_Some). congruence.
      * by rewrite list_lookup_insert_ne in Hj.
  - intros u. subst r.
    rewrite fetch_found, (accepted_settings self0),
      (request_url_settings self0), elem_of_add_if, Hfound by done.
    split.
    + intros [[Hacc ->] | [Hold | (j & p & m & ret & Hj & Hu & Hacc)]].
      * right. exists i, path, method. eexists. split; [|done].
        apply list_lookup_insert_eq. by eapply lookup_lt_Some.
      * by left.
      * right. exists j, p, m, ret. split; [|done].
        rewrite list_lookup_insert_ne; [done|]. intros ->. congruence.
    + intros [Hold | (j & p & m & ret & Hj & Hu & Hacc)]; [by right; left|].
      destruct (decide (i = j)) as [->|Hne].
      * rewrite list_lookup_insert_eq in Hj by (by eapply lookup_lt_Some).
        injection Hj as -> -> _. by left.
      * rewrite list_lookup_insert_ne in Hj by done.
        right. right. by exists j, p, m, ret.
Qed.

Lemma step_logs d d' :
  step_spec net d d' -> forall r, r ∈ d_logs d -> r ∈ d_logs d'.
Proof.
  intros [i path method n Hi Hs | i path method Hi r] rec Hrec; simpl;
    [done|].
  subst r. unfold _fetch.
  destruct (net i) as [status|e]; simpl.
  - destruct (status_in _ _); simpl; [|done].
    apply elem_of_app. by left.
  - apply elem_of_app. by left.
Qed.

Lemma step_finished self0 d d' :
  step_spec net d d' -> finished_inv net self0 d -> finished_inv net self0 d'.
Proof.
  intros Hstep [Hset Hfin].
  split; [by eapply step_settings|].
  intros j p m ret Hj.
  pose proof (step_logs _ _ Hstep) as Hmono.
  destruct Hstep as [i path method n Hi Hs | i path method Hi r];
    simpl in *.
  - destruct (decide (i = j)) as [->|Hne].
    + rewrite list_lookup_insert_eq in Hj by (by eapply lookup_lt_Some).
      congruence.
    + rewrite list_lookup_insert_ne in Hj by done.
      exact (Hfin j p m ret Hj).
  - destruct (decide (i = j)) as [->|Hne].
    + rewrite list_lookup_insert_eq in Hj by (by eapply lookup_lt_Some).
      injection Hj as -> -> <-. subst r.
      split; [apply fetch_ret|].
      intros e He. rewrite He, fetch_raises. simpl.
      rewrite (request_url_settings self0 (d_self d)) by done.
      apply elem_of_app. right. by apply list_elem_of_singleton.
    + rewrite list_lookup_insert_ne in Hj by done.
      destruct (Hfin j p m ret Hj) as [Hret Hlog].
      split; [done|]. intros e He.
      apply Hmono. by apply Hlog.
Qed.

(** *** Progress and termination *)

Lemma step_steps_left d d' :
  step_spec net d d' -> S (steps_left d') = steps_left d.
Proof.
  unfold steps_left, in_flight.
  intros [i path method n Hi Hs | i path method Hi r]; simpl.
  - destruct (insert_middle (d_tasks d) i _ (path, method, InFlight) Hi)
      as (l1 & l2 & E & -> & _).
    rewrite E, !filter_length_middle.
    repeat case_decide; try done; simpl in *; lia.
  - destruct (insert_middle (d_tasks d) i _ (path, method, Finished r.2) Hi)
      as (l1 & l2 & E & -> & _).
    rewrite E, !filter_length_middle.
    repeat case_decide; try done; simpl in *; lia.
Qed.

Lemma run_length schedule d d' :
  run net schedule d = Some d' ->
  (length schedule + steps_left d' = steps_left d)%nat.
Proof.
  revert d. induction schedule as [|a schedule IH]; intros d; simpl.
  - by intros [= <-].
  - destruct (step net a d) as [d1|] eqn:Ha; [|discriminate].
    intros Hrun. apply IH in Hrun.
    apply step_inv, step_steps_left in Ha. lia.
Qed.

Lemma forallb_false_lookup {A} (f : A -> bool) (l : list A) :
  forallb f l = false -> exists i x, l !! i = Some x /\ f x = false.
Proof.
  induction l as [|y l IH]; simpl; [discriminate|].
  destruct (f y) eqn:Ey; simpl.
  - intros H. destruct (IH H) as (i & x & Hi & Hx). by exists (S i), x.
  - intros _. by exists O, y.
Qed.

Lemma in_flight_pos_lookup d :
  in_flight d <> O ->
  exists i path method, d_tasks d !! i = Some (path, method, InFlight).
Proof.
  unfold in_flight. intros Hne.
  destruct (filter (fun t => is_inflight t = true) (d_tasks d))
    as [|t l] eqn:Ef; [done|].
  assert (Ht : t ∈ filter (fun t => is_inflight t = true) (d_tasks d))
    by (rewrite Ef; left).
  apply list_elem_of_filter in Ht as [Hin Ht].
  apply list_elem_of_lookup in Ht as [i Hi].
  destruct t as [[path method] [| |ret]]; try discriminate.
  by exists i, path, method.
Qed.

(** While a coroutine is unfinished and the semaphore has slots in all,
    some step is enabled: the batch cannot get stuck. *)
Lemma progress n d :
  (d_sem d + in_flight d = S n)%nat ->
  batch_complete d = false ->
  exists d', step_spec net d d'.
Proof.
  intros Hslots Hnot.
  destruct (decide (in_flight d = O)) as [Hz|Hnz].
  - apply forallb_false_lookup in Hnot as (i & [[path method] st] & Hi & Hf).
    destruct st as [| |ret]; try discriminate.
    + eexists. eapply (step_acquire net d i path method n); [done|lia].
    + eexists. by eapply (step_complete net d i path method).
  - destruct (in_flight_pos_lookup d Hnz) as (i & path & method & Hi).
    eexists. by eapply (step_complete net d i path method).
Qed.

(** From any state with slots in all, the batch can be driven to its
    end, and it takes exactly [steps_left] steps. *)
Lemma completion n d :
  (d_sem d + in_flight d = S n)%nat ->
  exists schedule d',
    run net schedule d = Some d' /\ batch_complete d' = true.
Proof.
  remember (steps_left d) as k eqn:Hk. revert d Hk.
  induction k as [k IH] using lt_wf_ind. intros d Hk Hslots.
  destruct (batch_complete d) eqn:Hc.
  - by exists [], d.
  - destruct (progress n d Hslots Hc) as [d1 Hstep].
    pose proof (step_steps_left _ _ Hstep) as Hlt.
    pose proof (step_slots _ _ Hstep) as Hsl.
    destruct (step_spec_enabled _ _ Hstep) as [a Ha].
    destruct (IH (steps_left d1) ltac:(lia) d1 eq_refl ltac:(lia))
      as (schedule & d' & Hrun & Hdone).
    exists (a :: schedule), d'. simpl. by rewrite Ha.
Qed.

End DispatchProps.

(** ** The work list *)

Lemma elem_of_work_list paths methods path method :
  (path, method) ∈ work_list paths methods
  <-> path ∈ paths /\ method ∈ methods.
Proof.
  unfold work_list. rewrite !list_elem_of_In, in_flat_map.
  split.
  - intros (p & Hp & Hin). apply in_map_iff in Hin as (m & [= <- <-] & Hm).
    done.
  - intros [Hp Hm]. exists path. split; [done|].
    apply in_map_iff. by exists method.
Qed.

Lemma NoDup_work_list paths methods :
  NoDup paths -> NoDup methods -> NoDup (work_list paths methods).
Proof.
  intros Hp Hm. unfold work_list.
  induction Hp as [|p paths Hnot Hp IH]; simpl; [constructor|].
  apply NoDup_app. split; [|split; [|exact IH]].
  - apply NoDup_fmap_2; [|done]. by intros m1 m2 [= ->].
  - intros [p' m'] H1 H2.
    apply list_elem_of_In, in_map_iff in H1 as (m & [= <- <-] & _).
    apply (elem_of_work_list paths methods) in H2 as [H2 _]. contradiction.
Qed.

Lemma length_work_list paths methods :
  length (work_list paths methods) = (length paths * length methods)%nat.
Proof.
  unfold work_list. induction paths as [|p paths IH]; simpl; [done|].
  rewrite length_app, length_map, IH. lia.
Qed.

(** ** The state in which [gather] is awaited *)

Lemma filter_pending_init (P : string * string * task_state -> Prop)
    `{forall t, Decision (P t)} (items : list (string * string)) :
  (forall it, ~ P (it, Pending)) ->
  filter P (map (fun it => (it, Pending)) items) = [].
Proof.
  intros Hnot. induction items as [|it items IH]; simpl; [done|].
  rewrite filter_cons_False by apply Hnot. exact IH.
Qed.

Lemma filter_pending_all (P : string * string * task_state -> Prop)
    `{forall t, Decision (P t)} (items : list (string * string)) :
  (forall it, P (it, Pending)) ->
  filter P (map (fun it => (it, Pending)) items)
  = map (fun it => (it, Pending)) items.
Proof.
  intros Hall. induction items as [|it items IH]; [done|].
  cbn [map]. rewrite filter_cons_True by apply Hall. by rewrite IH.
Qed.

Lemma init_items n self logs paths :
  map fst (d_tasks (dispatch_init n self logs paths))
  = work_list paths (methods self).
Proof.
  simpl. rewrite map_map. simpl. apply map_id.
Qed.

Lemma init_slots n self logs paths :
  (d_sem (dispatch_init n self logs paths)
   + in_flight (dispatch_init n self logs paths) = n)%nat.
Proof.
  unfold in_flight. simpl. rewrite filter_pending_init by (by intros it).
  simpl. lia.
Qed.

Lemma init_lookup n self logs paths i t :
  d_tasks (dispatch_init n self logs paths) !! i = Some t -> t.2 = Pending.
Proof.
  simpl. intros Hi. apply list_elem_of_lookup_2 in Hi.
  apply list_elem_of_In, in_map_iff in Hi as (it & <- & _). done.
Qed.

Section Reachable.

Variable net : nat -> outcome.
Variables (n : nat) (self : StreamFuzz) (logs : list log_record)
          (paths : list string).

Variables (schedule : list action) (d : dispatcher).
Hypothesis Hrun :
  run net schedule (dispatch_init n self logs paths) = Some d.

Lemma reach_items : map fst (d_tasks d) = work_list paths (methods self).
Proof using Hrun.
  refine (run_invariant net
            (fun d => map fst (d_tasks d) = work_list paths (methods self))
            _ schedule _ d _ Hrun).
  - intros d1 d2 H1 Hs. by rewrite (step_items net d1 d2 Hs).
  - apply init_items.
Qed.

Lemma reach_slots : (d_sem d + in_flight d = n)%nat.
Proof using Hrun.
  refine (run_invariant net (fun d => (d_sem d + in_flight d = n)%nat) _
            schedule _ d _ Hrun).
  - intros d1 d2 H1 Hs. by rewrite (step_slots net d1 d2 Hs).
  - apply init_slots.
Qed.

Lemma reach_calls : d_calls d ≡ₚ map fst (filter started (d_tasks d)).
Proof using Hrun.
  refine (run_invariant net
            (fun d => d_calls d ≡ₚ map fst (filter started (d_tasks d))) _
            schedule _ d _ Hrun).
  - intros d1 d2 H1 Hs. by eapply step_calls.
  - simpl. by rewrite filter_pending_init by (by intros it).
Qed.

Lemma reach_found : found_inv net self d.
Proof using Hrun.
  refine (run_invariant net (found_inv net self) _ schedule _ d _ Hrun).
  - intros d1 d2 H1 Hs. by eapply step_found.
  - split; [done|]. intros u. split; [by left|].
    intros [H | (i & p & m & ret & Hi & _)]; [done|].
    by apply init_lookup in Hi.
Qed.

Lemma reach_finished : finished_inv net self d.
Proof using Hrun.
  refine (run_invariant net (finished_inv net self) _ schedule _ d _ Hrun).
  - intros d1 d2 H1 Hs. by eapply step_finished.
  - split; [done|]. intros i p m ret Hi. by apply init_lookup in Hi.
Qed.

Lemma reach_found_mono : found_endpoints self ⊆ found_endpoints (d_self d).
Proof using Hrun.
  intros u Hu. apply reach_found. by left.
Qed.

End Reachable.

(** ** The state in which [_process_paths] returns *)

Lemma process_paths_inv net self logs paths schedule d :
  _process_paths net self logs paths schedule = Some d ->
  run net schedule (dispatch_init MAX_CONCURRENT_REQUESTS self logs paths)
  = Some d
  /\ batch_complete d = true.
Proof.
  unfold _process_paths.
  destruct (run net schedule _) as [d'|]; [|discriminate].
  destruct (batch_complete d') eqn:Hc; [|discriminate].
  by intros [= <-].
Qed.

Lemma batch_complete_lookup d i t :
  batch_complete d = true -> d_tasks d !! i = Some t ->
  exists ret, t.2 = Finished ret.
Proof.
  unfold batch_complete. intros Hall Hi.
  rewrite forallb_forall in Hall.
  apply list_elem_of_lookup_2, list_elem_of_In, Hall in Hi.
  destruct t as [it [| |ret]]; try discriminate. by exists ret.
Qed.

Lemma batch_complete_started d :
  batch_complete d = true -> filter started (d_tasks d) = d_tasks d.
Proof.
  unfold batch_complete. intros Hall. rewrite forallb_forall in Hall.
  induction (d_tasks d) as [|t l IH]; [done|].
  rewrite filter_cons_True.
  - f_equal. apply IH. intros x Hx. apply Hall. by right.
  - assert (Ht : is_finished t = true) by (apply Hall; by left).
    destruct t as [it [| |ret]]; done.
Qed.

Lemma returned_state net self logs paths schedule d i path method :
  _process_paths net self logs paths schedule = Some d ->
  work_list paths (methods self) !! i = Some (path, method) ->
  d_tasks d !! i = Some (path, method, Finished (returned (net i))).
Proof.
  intros [Hrun Hc]%process_paths_inv Hi.
  pose proof (reach_items net _ self logs paths schedule d Hrun) as Hitems.
  rewrite <- Hitems, list_lookup_fmap in Hi.
  destruct (d_tasks d !! i) as [[[p m] st]|] eqn:Ht; [|discriminate].
  simpl in Hi. injection Hi as -> ->.
  destruct (batch_complete_lookup d i _ Hc Ht) as [ret Hst]. simpl in Hst.
  subst st.
  destruct (reach_finished net _ self logs paths schedule d Hrun) as [_ Hfin].
  by destruct (Hfin i path method ret Ht) as [-> _].
Qed.

(** The discovered set at the end of the batch, from the outcomes alone. *)
Lemma returned_found net self logs paths schedule d u :
  _process_paths net self logs paths schedule = Some d ->
  u ∈ found_endpoints (d_self d)
  <-> u ∈ found_endpoints self
      \/ exists i path method,
           work_list paths (methods self) !! i = Some (path, method)
           /\ request_url self path = u
           /\ accepted self (net i) = true.
Proof.
  intros Hret. pose proof Hret as [Hrun Hc]%process_paths_inv.
  destruct (reach_found net _ self logs paths schedule d Hrun) as [_ Hfound].
  rewrite Hfound. apply or_iff_compat_l. split.
  - intros (i & path & method & ret & Hi & Hu & Hacc).
    exists i, path, method. split; [|done].
    rewrite <- (reach_items net _ self logs paths schedule d Hrun).
    by rewrite list_lookup_fmap, Hi.
  - intros (i & path & method & Hi & Hu & Hacc).
    exists i, path, method, (returned (net i)). split; [|done].
    by eapply returned_state.
Qed.

Lemma init_steps_left n self logs paths :
  steps_left (dispatch_init n self logs paths)
  = (2 * length (work_list paths (methods self)))%nat.
Proof.
  unfold steps_left, in_flight. simpl.
  rewrite (filter_pending_init (fun t => is_inflight t = true))
    by (by intros it).
  rewrite filter_pending_all by done.
  rewrite length_map. simpl. lia.
Qed.

(** An execution of the dispatcher is never longer than two steps per work
    item, and cannot stop short of the end of the batch for want of an
    enabled step. *)
Lemma process_paths_no_deadlock net self logs paths s1 d1 :
  run net s1 (dispatch_init MAX_CONCURRENT_REQUESTS self logs paths) = Some d1 ->
  (length s1 <= 2 * length (work_list paths (methods self)))%nat
  /\ (batch_complete d1 = false -> exists a d2, step net a d1 = Some d2).
Proof.
  intros Hrun. split.
  - pose proof (run_length net s1 _ d1 Hrun) as Hlen.
    rewrite init_steps_left in Hlen. lia.
  - intros Hnot.
    pose proof (reach_slots net _ self logs paths s1 d1 Hrun) as Hslots.
    destruct (progress net 99 d1 Hslots Hnot) as [d2 Hstep].
    destruct (step_spec_enabled net d1 d2 Hstep) as [a Ha]. by exists a, d2.
Qed.

(** Every partial execution extends to one in which [gather] returns. *)
Lemma process_paths_returns net self logs paths s1 d1 :
  run net s1 (dispatch_init MAX_CONCURRENT_REQUESTS self logs paths) = Some d1 ->
  exists s2 d, _process_paths net self logs paths (s1 ++ s2) = Some d.
Proof.
  intros Hrun.
  pose proof (reach_slots net _ self logs paths s1 d1 Hrun) as Hslots.
  destruct (completion net 99 d1 Hslots) as (s2 & d & Hrun2 & Hc).
  exists s2, d. unfold _process_paths. by rewrite run_app, Hrun, Hrun2, Hc.
Qed.

(** C1. The work list is the Cartesian product of the candidates and the
    methods, without repetition when neither has any.  Whenever
    [_process_paths] returns, the calls of [_fetch] made are the work list
    up to order (each scheduled item once, none left out, none repeated),
    and every item has finished: with the status of its response, or with
    [None] and its error in the log.  An execution takes at most two steps
    per item, always has a step to take while an item is unfinished, and
    can be carried on from any point until [_process_paths] returns. *)
Theorem dispatcher_complete :
  forall (net : nat -> outcome) (self : StreamFuzz) (logs : list log_record)
         (paths : list string),
    let items := work_list paths (methods self) in
    (forall path method,
       (path, method) ∈ items <-> path ∈ paths /\ method ∈ methods self)
    /\ (NoDup paths -> NoDup (methods self) -> NoDup items)
    /\ (forall schedule d,
         _process_paths net self logs paths schedule = Some d ->
         d_calls d ≡ₚ items
         /\ length (d_tasks d) = length items
         /\ forall i path method,
              items !! i = Some (path, method) ->
              d_tasks d !! i = Some (path, method, Finished (returned (net i)))
              /\ forall e, net i = Raises e ->
                   LogFetchError (request_url self path) e ∈ d_logs d)
    /\ (forall s1 d1,
         run net s1 (dispatch_init MAX_CONCURRENT_REQUESTS self logs paths)
         = Some d1 ->
         (length s1 <= 2 * length items)%nat
         /\ (batch_complete d1 = false ->
             exists a d2, step net a d1 = Some d2)
         /\ exists s2 d,
              _process_paths net self logs paths (s1 ++ s2) = Some d).
Proof.
  intros net self logs paths items.
  split; [intros; apply elem_of_work_list|].
  split; [apply NoDup_work_list|].
  split.
  2:{ intros s1 d1 Hrun.
      destruct (process_paths_no_deadlock net self logs paths s1 d1 Hrun)
        as [Hlen Hlive].
      split; [exact Hlen|]. split; [exact Hlive|].
      by eapply process_paths_returns. }
  intros schedule d Hret.
  pose proof Hret as [Hrun Hc]%process_paths_inv.
  pose proof (reach_items net _ self logs paths schedule d Hrun) as Hitems.
  split; [|split].
  - rewrite (reach_calls net _ self logs paths schedule d Hrun).
    rewrite batch_complete_started by done. subst items. by rewrite Hitems.
  - subst items. by rewrite <- Hitems, length_map.
  - intros i path method Hi.
    pose proof (returned_state net self logs paths schedule d i path method
                  Hret Hi) as Ht.
    split; [done|].
    destruct (reach_finished net _ self logs paths schedule d Hrun) as [_ Hfin].
    by destruct (Hfin i path method _ Ht) as [_ Hlog].
Qed.

Lemma sample_returns :
  _process_paths sample_net sample_dispatcher_self [] sample_paths
    sample_schedule
  = Some sample_returned.
Proof. vm_compute. reflexivity. Qed.

Example sample_returned_found :
  found_endpoints (d_self sample_returned)
  = {[ "http://t/admin"; "http://t/login" ]}.
Proof. vm_compute. reflexivity. Qed.

Lemma dispatcher_complete_witness :
  NoDup (work_list sample_paths (methods sample_dispatcher_self))
  /\ d_calls sample_returned
     ≡ₚ work_list sample_paths (methods sample_dispatcher_self)
  /\ d_tasks sample_returned !! 1%nat = Some ("admin", "GET", Finished None)
  /\ LogFetchError "http://t/admin" "timeout" ∈ d_logs sample_returned
  /\ (exists a d2, step sample_net a sample_in_flight = Some d2)
  /\ exists s2 d,
       _process_paths sample_net sample_dispatcher_self [] sample_paths
         ([Acquire 2; Acquire 0] ++ s2) = Some d.
Proof.
  destruct (dispatcher_complete sample_net sample_dispatcher_self []
              sample_paths) as (_ & Hnodup & Hret & Hext).
  destruct (Hext [Acquire 2; Acquire 0] sample_in_flight)
    as (_ & Hlive & Hmore); [vm_compute; reflexivity|].
  destruct (Hret sample_schedule sample_returned sample_returns)
    as (Hcalls & _ & Hitem).
  destruct (Hitem 1%nat "admin" "GET" eq_refl) as [Hfin Hlog].
  split; [apply Hnodup; compute_decide|].
  split; [exact Hcalls|].
  split; [exact Hfin|].
  split; [exact (Hlog "timeout" eq_refl)|].
  split; [apply Hlive; vm_compute; reflexivity|].
  exact Hmore.
Defined.

(** ** Admission control *)

(** C2. At every instant of every execution of the dispatcher the calls
    of [_fetch] in flight are at most the value the semaphore was created
    with, whatever that value and the size of the batch, and once they
    reach it no coroutine can enter.  [_process_paths] creates the
    semaphore with [MAX_CONCURRENT_REQUESTS], which is 100: at no instant
    are more than 100 calls in flight. *)
Theorem admission_bound :
  forall (net : nat -> outcome) (self : StreamFuzz) (logs : list log_record)
         (paths : list string),
    (forall n schedule d,
       run net schedule (dispatch_init n self logs paths) = Some d ->
       (in_flight d <= n)%nat
       /\ (d_sem d + in_flight d = n)%nat
       /\ (in_flight d = n -> forall i, step net (Acquire i) d = None))
    /\ MAX_CONCURRENT_REQUESTS = 100%nat
    /\ (forall schedule d,
         run net schedule
           (dispatch_init MAX_CONCURRENT_REQUESTS self logs paths) = Some d ->
         (in_flight d <= 100)%nat).
Proof.
  intros net self logs paths. split; [|split; [reflexivity|]].
  - intros n schedule d Hrun.
    pose proof (reach_slots net n self logs paths schedule d Hrun) as Hslots.
    split; [lia|]. split; [exact Hslots|].
    intros Hfull i. simpl.
    assert (Hz : d_sem d = O) by lia. rewrite Hz.
    by destruct (d_tasks d !! i) as [[[path method] [| |ret]]|].
  - intros schedule d Hrun.
    pose proof (reach_slots net _ self logs paths schedule d Hrun) as Hslots.
    unfold MAX_CONCURRENT_REQUESTS in Hslots. lia.
Qed.

Lemma admission_bound_witness :
  let d := default (dispatch_init 0 sample_dispatcher_self [] sample_paths)
             (run sample_net [Acquire 3; Acquire 0]
                (dispatch_init 2 sample_dispatcher_self [] sample_paths)) in
  (in_flight d = 2%nat /\ step sample_net (Acquire 1) d = None)
  /\ (in_flight sample_returned <= 100)%nat.
Proof.
  intros d.
  destruct (admission_bound sample_net sample_dispatcher_self [] sample_paths)
    as (Hany & _ & Hmax).
  destruct (Hany 2%nat [Acquire 3; Acquire 0] d) as (_ & _ & Hfull);
    [vm_compute; reflexivity|].
  split.
  - split; [vm_compute; reflexivity|].
    apply Hfull. vm_compute. reflexivity.
  - apply (Hmax sample_schedule). vm_compute. reflexivity.
Defined.

(** ** Failure isolation *)

Lemma inject_failures_in failing e net i :
  i ∈ failing -> inject_failures failing e net i = Raises e.
Proof. intros H. unfold inject_failures. by rewrite decide_True. Qed.

Lemma inject_failures_notin failing e net i :
  i ∉ failing -> inject_failures failing e net i = net i.
Proof. intros H. unfold inject_failures. by rewrite decide_False. Qed.

Lemma accepted_inject self failing e net i :
  accepted self (inject_failures failing e net i) = true
  <-> (i ∉ failing) /\ accepted self (net i) = true.
Proof.
  unfold inject_failures. destruct (decide (i ∈ failing)); simpl.
  - split; [discriminate | by intros [? _]].
  - tauto.
Qed.

(** C4. When the request raises, [_fetch] logs the error, leaves the
    object (the discovered set with it) as it was and returns [None]
    instead of raising.  With transport errors injected for any set of
    work items, every execution can still be carried on until
    [_process_paths] returns; and then the discovered set is what the
    other items discover under the original outcomes, each of them has
    finished with the status it had, and each failing one has finished
    with [None] and its error in the log. *)
Theorem failure_isolation :
  forall (net : nat -> outcome) (self : StreamFuzz) (logs : list log_record)
         (paths : list string) (failing : gset nat) (e : string),
    let items := work_list paths (methods self) in
    let net' := inject_failures failing e net in
    (forall path method,
       _fetch self logs path method (Raises e)
       = (self, logs ++ [LogFetchError (request_url self path) e], None))
    /\ (forall s1 d1,
         run net' s1 (dispatch_init MAX_CONCURRENT_REQUESTS self logs paths)
         = Some d1 ->
         exists s2 d', _process_paths net' self logs paths (s1 ++ s2) = Some d')
    /\ (forall schedule' d',
         _process_paths net' self logs paths schedule' = Some d' ->
         (forall u,
            u ∈ found_endpoints (d_self d')
            <-> u ∈ found_endpoints self
                \/ exists i path method,
                     (i ∉ failing)
                     /\ items !! i = Some (path, method)
                     /\ request_url self path = u
                     /\ accepted self (net i) = true)
         /\ (forall i path method,
               items !! i = Some (path, method) ->
               i ∈ failing ->
               d_tasks d' !! i = Some (path, method, Finished None)
               /\ LogFetchError (request_url self path) e ∈ d_logs d')
         /\ (forall schedule d,
               _process_paths net self logs paths schedule = Some d ->
               found_endpoints (d_self d') ⊆ found_endpoints (d_self d)
               /\ forall i, i ∉ failing -> d_tasks d' !! i = d_tasks d !! i)).
Proof.
  intros net self logs paths failing e items net'.
  split; [reflexivity|]. split; [apply process_paths_returns|].
  intros schedule' d' Hret'.
  assert (Hfound' : forall u,
            u ∈ found_endpoints (d_self d')
            <-> u ∈ found_endpoints self
                \/ exists i path method,
                     (i ∉ failing)
                     /\ items !! i = Some (path, method)
                     /\ request_url self path = u
                     /\ accepted self (net i) = true).
  { intros u. rewrite (returned_found net' self logs paths schedule' d' u Hret').
    apply or_iff_compat_l.
    split; intros (i & path & method & H); exists i, path, method.
    - destruct H as (Hi & Hu & Hacc).
      apply accepted_inject in Hacc as [Hnot Hacc]. done.
    - destruct H as (Hnot & Hi & Hu & Hacc).
      split; [done|]. split; [done|]. by apply accepted_inject. }
  split; [exact Hfound'|]. split.
  - intros i path method Hi Hin.
    pose proof (returned_state net' self logs paths schedule' d' i path method
                  Hret' Hi) as Ht.
    subst net'. rewrite inject_failures_in in Ht by done. split; [done|].
    pose proof Hret' as [Hrun' _]%process_paths_inv.
    destruct (reach_finished _ _ self logs paths schedule' d' Hrun')
      as [_ Hfin].
    destruct (Hfin i path method _ Ht) as [_ Hlog].
    apply Hlog. by apply inject_failures_in.
  - intros schedule d Hret. split.
    + intros u. rewrite Hfound'.
      rewrite (returned_found net self logs paths schedule d u Hret).
      intros [Hu | (i & path & method & _ & H)]; [by left|].
      right. by exists i, path, method.
    + intros i Hnot.
      destruct (items !! i) as [[path method]|] eqn:Hi.
      * rewrite (returned_state net' self logs paths schedule' d' i path
                   method Hret' Hi).
        rewrite (returned_state net self logs paths schedule d i path
                   method Hret Hi).
        subst net'. by rewrite inject_failures_notin.
      * pose proof Hret as [Hrun _]%process_paths_inv.
        pose proof Hret' as [Hrun' _]%process_paths_inv.
        pose proof (reach_items _ _ self logs paths schedule d Hrun) as E.
        pose proof (reach_items _ _ self logs paths schedule' d' Hrun') as E'.
        fold items in E, E'.
        apply lookup_ge_None in Hi.
        rewrite !lookup_ge_None_2; [done| |].
        -- rewrite <- E, length_map in Hi. done.
        -- rewrite <- E', length_map in Hi. done.
Qed.

Lemma sample_injected_returns :
  _process_paths (inject_failures {[ 0%nat ]} "refused" sample_net)
    sample_dispatcher_self [] sample_paths (sequential_schedule 4)
  = Some sample_injected.
Proof. vm_compute. reflexivity. Qed.

Example sample_injected_found :
  found_endpoints (d_self sample_injected) = {[ "http://t/login" ]}.
Proof. vm_compute. reflexivity. Qed.

Lemma failure_isolation_witness :
  (d_tasks sample_injected !! 0%nat = Some ("admin", "HEAD", Finished None)
   /\ LogFetchError "http://t/admin" "refused" ∈ d_logs sample_injected)
  /\ found_endpoints (d_self sample_injected)
     ⊆ found_endpoints (d_self sample_returned)
  /\ d_tasks sample_injected !! 3%nat = d_tasks sample_returned !! 3%nat
  /\ exists s2 d',
       _process_paths (inject_failures {[ 0%nat ]} "refused" sample_net)
         sample_dispatcher_self [] sample_paths ([Acquire 1] ++ s2) = Some d'.
Proof.
  destruct (failure_isolation sample_net sample_dispatcher_self []
              sample_paths {[ 0%nat ]} "refused") as (_ & Hext & Hret).
  destruct (Hret (sequential_schedule 4) sample_injected
              sample_injected_returns) as (_ & Hfail & Hcmp).
  destruct (Hcmp sample_schedule sample_returned sample_returns)
    as [Hsub Hsame].
  split; [apply (Hfail 0%nat "admin" "HEAD" eq_refl); compute_decide|].
  split; [exact Hsub|].
  split; [apply Hsame; compute_decide|].
  eapply Hext. vm_compute. reflexivity.
Defined.

(** ** The discovered set only grows *)

Lemma step_found_mono net d d' :
  step_spec net d d' ->
  found_endpoints (d_self d) ⊆ found_endpoints (d_self d').
Proof.
  intros [i path method n Hi Hs | i path method Hi r]; simpl; [done|].
  apply fetch_found_mono.
Qed.

Lemma run_found_mono net schedule d d' :
  run net schedule d = Some d' ->
  found_endpoints (d_self d) ⊆ found_endpoints (d_self d').
Proof.
  intros Hrun.
  refine (run_invariant net
            (fun d1 => found_endpoints (d_self d) ⊆ found_endpoints (d_self d1))
            _ schedule d d' _ Hrun); [|done].
  intros d1 d2 H1 Hs. etrans; [exact H1|]. by eapply step_found_mono.
Qed.

(** C7. Recording a URL that is already in the discovered set changes
    nothing: after two accepted responses for the same URL the set is the
    one after the first, a single member if it was empty before.  No call
    of [_fetch], no step of the dispatcher, no execution of it and no run
    of [start] removes a member: the set at any later point includes the
    set at any earlier one. *)
Theorem found_endpoints_invariant :
  forall (net : nat -> outcome),
    (forall self logs p1 m1 p2 m2 s1 s2,
       request_url self p1 = request_url self p2 ->
       s1 ∈ valid_status_codes self ->
       s2 ∈ valid_status_codes self ->
       let r1 := _fetch self logs p1 m1 (Response s1) in
       let r2 := _fetch r1.1.1 r1.1.2 p2 m2 (Response s2) in
       found_endpoints r2.1.1 = found_endpoints r1.1.1
       /\ found_endpoints r1.1.1
          = {[ request_url self p1 ]} ∪ found_endpoints self
       /\ (found_endpoints self = ∅ -> size (found_endpoints r2.1.1) = 1%nat))
    /\ (forall self logs path method o,
         found_endpoints self
         ⊆ found_endpoints (_fetch self logs path method o).1.1)
    /\ (forall a d d',
         step net a d = Some d' ->
         found_endpoints (d_self d) ⊆ found_endpoints (d_self d'))
    /\ (forall s1 s2 d0 d1 d2,
         run net s1 d0 = Some d1 ->
         run net s2 d1 = Some d2 ->
         found_endpoints (d_self d0) ⊆ found_endpoints (d_self d1)
         /\ found_endpoints (d_self d1) ⊆ found_endpoints (d_self d2))
    /\ (forall writable self logs fs schedule self' logs' fs' c,
         start net writable self logs fs schedule
         = Some (self', logs', fs', c) ->
         found_endpoints self ⊆ found_endpoints self').
Proof.
  intros net. split; [|split; [|split; [|split]]].
  - intros self logs p1 m1 p2 m2 s1 s2 Hurl H1 H2 r1 r2.
    assert (E1 : found_endpoints r1.1.1
                 = {[ request_url self p1 ]} ∪ found_endpoints self).
    { subst r1. rewrite fetch_response_found.
      apply status_in_spec in H1. by rewrite H1. }
    assert (E2 : found_endpoints r2.1.1 = found_endpoints r1.1.1).
    { subst r2. rewrite fetch_response_found.
      destruct (fetch_settings self logs p1 m1 (Response s1))
        as (Hb & Hv & _).
      fold r1 in Hb, Hv. rewrite Hv.
      apply status_in_spec in H2. rewrite H2.
      unfold request_url at 1. rewrite Hb. fold (request_url self p2).
      rewrite <- Hurl, E1.
      by rewrite (assoc_L (∪)), (idemp_L (∪)). }
    split; [done|]. split; [done|].
    intros Hempty. rewrite E2, E1, Hempty, (right_id_L ∅ (∪)).
    apply size_singleton.
  - intros. apply fetch_found_mono.
  - intros a d d' Hstep. eapply step_found_mono. by eapply step_inv.
  - intros s1 s2 d0 d1 d2 H1 H2. split; by eapply run_found_mono.
  - intros writable self logs fs schedule self' logs' fs' c. unfold start.
    destruct (_process_paths _ _ _ _ _) as [d|] eqn:Hret; [|discriminate].
    destruct (_save_results _ _ _ _) as [[l f] c']. intros [= <- _ _ _].
    apply process_paths_inv in Hret as [Hrun _].
    by apply run_found_mono in Hrun.
Qed.

Example sample_run_files :
  (fun r => r.2 !! DEFAULT_OUTPUT) <$> sample_run
  = Some (Some ("http://t/admin" +:+ LF +:+ "http://t/api" +:+ LF
                +:+ "http://t/dashboard" +:+ LF +:+ "http://t/login" +:+ LF
                +:+ "http://t/user" +:+ LF)).
Proof. vm_compute. reflexivity. Qed.

Lemma found_endpoints_invariant_witness :
  (let r1 := _fetch sample_fuzzer [] "admin" "HEAD" (Response 200) in
   let r2 := _fetch r1.1.1 r1.1.2 "/admin" "GET" (Response 401) in
   found_endpoints r2.1.1 = found_endpoints r1.1.1
   /\ size (found_endpoints r2.1.1) = 1%nat)
  /\ found_endpoints sample_dispatcher_self
     ⊆ found_endpoints (d_self sample_returned)
  /\ found_endpoints (d_self sample_in_flight)
     ⊆ found_endpoints
         (d_self (default sample_in_flight
                    (step sample_net (Complete 0) sample_in_flight)))
  /\ found_endpoints sample_fuzzer
     ⊆ found_endpoints (default (sample_fuzzer, [], ∅) sample_run).1.1.
Proof.
  destruct (found_endpoints_invariant sample_net)
    as (Hidem & _ & Hstep & Hrun & _).
  destruct (found_endpoints_invariant (fun _ => Response 200))
    as (_ & _ & _ & _ & Hstart).
  split; [|split].
  - destruct (Hidem sample_fuzzer [] "admin" "HEAD" "/admin" "GET" 200 401)
      as (H1 & _ & H3); [reflexivity|compute_decide|compute_decide|].
    split; [exact H1|]. apply H3. reflexivity.
  - refine (proj2 (Hrun [] sample_schedule
                     (dispatch_init MAX_CONCURRENT_REQUESTS
                        sample_dispatcher_self [] sample_paths)
                     _ sample_returned eq_refl _)).
    vm_compute. reflexivity.
  - split.
    + apply (Hstep (Complete 0)). vm_compute. reflexivity.
    + eapply (Hstart (fun _ => true) sample_fuzzer [] ∅
                (sequential_schedule 5)).
      vm_compute. reflexivity.
Defined.

(** ** The order of [sorted] *)

Lemma ascii_compare_spec (a b : ascii) :
  CompareSpec (a = b) (N_of_ascii a < N_of_ascii b)%N
    (N_of_ascii b < N_of_ascii a)%N (Ascii.compare a b).
Proof.
  unfold Ascii.compare.
  destruct (N.compare_spec (N_of_ascii a) (N_of_ascii b)) as [E|L|G];
    constructor; try done.
  by rewrite <- (ascii_N_embedding a), <- (ascii_N_embedding b), E.
Qed.

Lemma string_compare_cons a b s t :
  String.compare (String a s) (String b t)
  = match Ascii.compare a b with
    | Eq => String.compare s t
    | c => c
    end.
Proof. simpl. by destruct (Ascii.compare a b). Qed.

#[global] Instance string_le_trans : Transitive string_le.
Proof.
  unfold string_le, String.leb.
  intros s1. induction s1 as [|a s1 IH]; intros [|b s2] [|c s3]; try done.
  rewrite !string_compare_cons.
  destruct (ascii_compare_spec a b) as [->|Hab|Hab]; try done.
  - destruct (ascii_compare_spec b c) as [->|Hbc|Hbc]; try done.
    apply IH.
  - intros _.
    destruct (ascii_compare_spec b c) as [->|Hbc|Hbc]; try done.
    + destruct (ascii_compare_spec a c) as [->|Hac|Hac]; try done; lia.
    + destruct (ascii_compare_spec a c) as [->|Hac|Hac]; try done; lia.
Qed.

#[global] Instance string_le_total : Total string_le.
Proof. intros s1 s2. apply String.leb_total. Qed.

#[global] Instance string_le_antisymm : AntiSymm (=) string_le.
Proof. intros s1 s2. apply String.leb_antisym. Qed.

Lemma sorted_spec (l : list string) :
  StronglySorted string_le (sorted l) /\ sorted l ≡ₚ l.
Proof.
  unfold sorted. split.
  - apply StronglySorted_merge_sort; apply _.
  - apply merge_sort_Permutation.
Qed.

(** Reading back what [write_lines] wrote gives one line per endpoint. *)
(** ** The result sink [_save_results] *)

Lemma keep_lines_write_line (u rest : string) :
  contains_char "010" u = false ->
  PyStr.keep_lines (u +:+ LF +:+ rest) = (u +:+ LF) :: PyStr.keep_lines rest.
Proof.
  induction u as [|c u IH]; intros Hu.
  - reflexivity.
  - simpl in Hu. apply orb_false_iff in Hu as [Hc Hu].
    rewrite !append_cons. simpl. rewrite Hc, (IH Hu). reflexivity.
Qed.

Lemma keep_lines_write_lines (urls : list string) :
  Forall (fun u => contains_char "010" u = false) urls ->
  PyStr.keep_lines (write_lines urls) = map (fun u => u +:+ LF) urls.
Proof.
  induction 1 as [|u urls Hu _ IH]; simpl; [done|].
  rewrite keep_lines_write_line by done. by rewrite IH.
Qed.

(** C6. With an empty discovered set [_save_results] logs a warning and
    leaves the file system (the output file with it) as it was.  With a
    non-empty one, when the output file can be opened for writing, it
    replaces the content of the output file, and of no other, by the
    members of the set, each once, in lexicographic order, each followed
    by a line feed, so that the file reads back as one URL per line; when
    the file cannot be opened, the exception leaves the function, and
    nothing is written or logged.  For the set of [http://t/b] and
    [http://t/a] the content is [http://t/a], line feed, [http://t/b],
    line feed. *)
Theorem save_results_spec :
  forall (writable : string -> bool) (self : StreamFuzz)
         (logs : list log_record) (fs : filesystem),
    let r := _save_results writable self logs fs in
    (found_endpoints self = ∅ ->
       r = (logs ++ [LogNoEndpoints], fs, Returned)
       /\ record_level LogNoEndpoints = WARNING)
    /\ (found_endpoints self <> ∅ ->
        writable (output_file self) = true ->
        exists urls,
          r = (logs ++ [LogSaved (output_file self)],
               <[output_file self := write_lines urls]> fs,
               Returned)
          /\ r.1.2 !! output_file self = Some (write_lines urls)
          /\ (forall p, p <> output_file self -> r.1.2 !! p = fs !! p)
          /\ (forall u, u ∈ urls <-> u ∈ found_endpoints self)
          /\ NoDup urls
          /\ StronglySorted string_le urls
          /\ (Forall (fun u => contains_char "010" u = false) urls ->
              PyStr.keep_lines (write_lines urls)
              = map (fun u => u +:+ LF) urls))
    /\ (found_endpoints self <> ∅ ->
        writable (output_file self) = false ->
        r = (logs, fs, Raised OSError))
    /\ (found_endpoints self = {[ "http://t/b"; "http://t/a" ]} ->
        writable (output_file self) = true ->
        r.1.2 !! output_file self
        = Some ("http://t/a" +:+ LF +:+ "http://t/b" +:+ LF)).
Proof.
  intros writable self logs fs r. subst r. unfold _save_results.
  split; [|split; [|split]].
  - intros ->. by rewrite bool_decide_eq_true_2.
  - intros Hne Hw. rewrite bool_decide_eq_false_2, Hw by done.
    exists (sorted (elements (found_endpoints self))).
    destruct (sorted_spec (elements (found_endpoints self))) as [Hs Hp].
    split; [done|]. simpl.
    split; [apply lookup_insert_eq|].
    split; [intros p Hp'; by apply lookup_insert_ne|].
    split; [intros u; by rewrite Hp, elem_of_elements|].
    split; [rewrite Hp; apply NoDup_elements|].
    split; [done|]. apply keep_lines_write_lines.
  - intros Hne Hw. by rewrite bool_decide_eq_false_2, Hw by done.
  - intros -> Hw. rewrite bool_decide_eq_false_2, Hw by (by vm_compute).
    simpl. rewrite lookup_insert_eq. f_equal.
Qed.

Lemma save_results_spec_witness :
  _save_results sample_writable sample_fuzzer [] sample_fs
  = ([LogNoEndpoints], sample_fs, Returned)
  /\ (_save_results sample_writable sample_found [] sample_fs).1.2
       !! DEFAULT_OUTPUT
     = Some ("http://t/a" +:+ LF +:+ "http://t/b" +:+ LF)
  /\ (exists urls,
        (_save_results sample_writable sample_found [] sample_fs).1.2
          !! DEFAULT_OUTPUT
        = Some (write_lines urls)
        /\ (_save_results sample_writable sample_found [] sample_fs).1.2
             !! "notes.txt"
           = Some "keep"
        /\ StronglySorted string_le urls
        /\ PyStr.keep_lines (write_lines urls) = map (fun u => u +:+ LF) urls)
  /\ _save_results sample_writable sample_unwritable [] sample_fs
     = ([], sample_fs, Raised OSError).
Proof.
  destruct (save_results_spec sample_writable sample_fuzzer [] sample_fs)
    as ([He _] & _ & _); [reflexivity|].
  destruct (save_results_spec sample_writable sample_found [] sample_fs)
    as (_ & Hne & _ & Hex).
  destruct (save_results_spec sample_writable sample_unwritable [] sample_fs)
    as (_ & _ & Hraise & _).
  split; [exact He|]. split; [apply Hex; reflexivity|].
  split; [|apply Hraise; [compute_decide | reflexivity]].
  destruct Hne as (urls & Hr & Hout & Hother & Hmem & _ & Hsorted & Hread);
    [compute_decide|reflexivity|].
  exists urls. split; [exact Hout|].
  split; [rewrite Hother by discriminate; reflexivity|].
  split; [exact Hsorted|].
  apply Hread. apply Forall_forall. intros u Hu.
  apply Hmem in Hu. change (u ∈ ({[ "http://t/b"; "http://t/a" ]} : gset string)) in Hu.
  apply elem_of_union in Hu as [Hu|Hu]; apply elem_of_singleton in Hu;
    subst u; reflexivity.
Defined.

(** ** The candidate source [_load_wordlist] *)

Lemma truthy_spec (s : string) : PyStr.truthy s = true <-> s <> EmptyString.
Proof. destruct s; simpl; split; congruence. Qed.

(** A line with a leading space: the code probes [x], the line is [ x]. *)
Lemma load_wordlist_not_raw_lines :
  let fs : filesystem := {[ DEFAULT_WORDLIST := " x" +:+ LF ]} in
  (list_to_set (_load_wordlist_with ["admin"; "login"] sample_fuzzer fs)
     : gset string)
  <> stated_candidates ["admin"; "login"] (fs !! wordlist sample_fuzzer).
Proof. intros fs. subst fs. compute_decide. Qed.

(** C3, as the code has it.  The loaded candidates are, without
    repetition, the lines of the file each stripped of its leading and
    trailing whitespace, those that are empty once stripped left out,
    together with the built-in list; the built-in list alone when there is
    no file.  For a file with the lines [x], an empty one and [admin] and
    the built-ins [admin] and [login], they are [x], [admin] and
    [login]. *)
Theorem load_wordlist_spec :
  forall (common_paths : list string) (self : StreamFuzz) (fs : filesystem),
    let loaded := _load_wordlist_with common_paths self fs in
    NoDup loaded
    /\ (forall c,
          c ∈ loaded
          <-> (exists content line,
                 fs !! wordlist self = Some content
                 /\ line ∈ PyStr.file_lines content
                 /\ PyStr.strip line = c
                 /\ c <> EmptyString)
              \/ c ∈ common_paths)
    /\ (fs !! wordlist self = None -> forall c, c ∈ loaded <-> c ∈ common_paths)
    /\ _load_wordlist self fs = _load_wordlist_with COMMON_PATHS self fs
    /\ (fs !! wordlist self = Some ("x" +:+ LF +:+ LF +:+ "admin" +:+ LF) ->
        (list_to_set (_load_wordlist_with ["admin"; "login"] self fs)
           : gset string)
        = {[ "x"; "admin"; "login" ]}).
Proof.
  intros common_paths self fs loaded. subst loaded.
  unfold _load_wordlist_with.
  split; [apply NoDup_elements|].
  split; [|split; [|split; [reflexivity|]]].
  - intros c. rewrite elem_of_elements, elem_of_list_to_set.
    destruct (fs !! wordlist self) as [content|]; simpl.
    + rewrite elem_of_app. apply or_iff_compat_r.
      rewrite list_elem_of_fmap. split.
      * intros (line & -> & Hline).
        apply list_elem_of_filter in Hline as [Ht Hline].
        exists content, line. by rewrite <- truthy_spec.
      * intros (content' & line & [= <-] & Hline & <- & Hne).
        exists line. split; [done|].
        apply list_elem_of_filter. by rewrite truthy_spec.
    + split; [by right|].
      intros [(content & line & [=] & _) | H]; done.
  - intros ->. intros c. simpl. by rewrite elem_of_elements, elem_of_list_to_set.
  - intros ->. by vm_compute.
Qed.

Lemma load_wordlist_spec_witness :
  let fs : filesystem :=
    {[ DEFAULT_WORDLIST := "x" +:+ LF +:+ LF +:+ "admin" +:+ LF ]} in
  (list_to_set (_load_wordlist_with ["admin"; "login"] sample_fuzzer fs)
     : gset string)
  = {[ "x"; "admin"; "login" ]}
  /\ (forall c, c ∈ _load_wordlist_with COMMON_PATHS sample_fuzzer ∅
                <-> c ∈ COMMON_PATHS).
Proof.
  intros fs. split.
  - apply (load_wordlist_spec ["admin"; "login"] sample_fuzzer fs).
    reflexivity.
  - apply (load_wordlist_spec COMMON_PATHS sample_fuzzer ∅). reflexivity.
Defined.

(** ** The shell *)

Section MenuProps.

Variable json_loads : string -> option json.
Variable py_int : string -> option Z.
Context {world : Type}.
Variable run_start : StreamFuzz -> world -> world * ending.

Lemma accepts_json_cases (line : string) (prev : json) :
  accepts_json json_loads line ->
  exists v,
    (if PyStr.truthy (PyStr.strip line)
     then match json_loads (PyStr.strip line) with
          | Some v => ret v
          | None => raise JSONDecodeError
          end
     else ret prev) = ret v.
Proof.
  intros [Hblank | [v Hv]].
  - rewrite Hblank. by exists prev.
  - rewrite Hv. destruct (PyStr.truthy _); by eexists.
Qed.

(** Option 2 on a malformed entry: the exception leaves [configure]. *)
Lemma configure_malformed cfg c kb e :
  malformed json_loads py_int (c :: kb) e -> configure json_loads py_int cfg kb = inl e.
Proof.
  inversion 1 as [c' u w o h kb' Hc [Ht Hj]
                 |c' u w o h k kb' Hc Hh [Ht Hj]
                 |c' u w o h k m s kb' Hc Hh Hk [Ht Hs]]; subst.
  - unfold configure, bind, input. by rewrite Ht, Hj.
  - destruct (accepts_json_cases h (cfg_headers cfg) Hh) as [v Hv].
    unfold configure, bind, input. rewrite Hv. unfold ret at 1.
    by rewrite Ht, Hj.
  - destruct (accepts_json_cases h (cfg_headers cfg) Hh) as [v Hv].
    destruct (accepts_json_cases k (cfg_cookies cfg) Hk) as [v' Hv'].
    unfold configure, bind, input. rewrite Hv. unfold ret at 1.
    rewrite Hv'. unfold ret at 1. by rewrite Ht, Hs.
Qed.

Lemma malformed_choice kb e :
  malformed json_loads py_int kb e ->
  exists c kb', kb = c :: kb' /\ PyStr.strip c = "2".
Proof. inversion 1; subst; eauto. Qed.

(** C9. When an entry of option 2 makes [json.loads] (headers, cookies)
    or [int] (status codes) raise, the pass through the menu ends with
    that exception and no event: no run is started and the settings are
    not reported as updated.  Nothing catches it, so [interactive_menu]
    itself ends with the exception: the rest of the keyboard is never
    read and no settings, the prior ones included, outlive it.  The world
    (files, log) is left as it was. *)
Theorem malformed_configuration_aborts :
  forall (cfg : config) (w : world) (kb : list string) (e : exn),
    malformed json_loads py_int kb e ->
    menu_iteration json_loads py_int run_start cfg w kb = Abort e w []
    /\ (forall fuel,
          menu_loop json_loads py_int run_start (S fuel) cfg w kb
          = ([], Uncaught e, w))
    /\ interactive_menu json_loads py_int run_start w kb
       = ([], Uncaught e, w)
    /\ (e = JSONDecodeError \/ e = ValueError).
Proof.
  intros cfg w kb e Hbad.
  assert (Hit : forall cfg0,
            menu_iteration json_loads py_int run_start cfg0 w kb
            = Abort e w []).
  { intros cfg0.
    destruct (malformed_choice kb e Hbad) as (c & kb' & -> & Hc).
    unfold menu_iteration. simpl. rewrite Hc. simpl.
    by rewrite (configure_malformed cfg0 c kb' e Hbad). }
  split; [apply Hit|]. split; [|split].
  - intros fuel. simpl. by rewrite Hit.
  - unfold interactive_menu. simpl. by rewrite Hit.
  - inversion Hbad; auto.
Qed.

(** *** The loop never runs short of passes *)

Lemma configure_consumes cfg kb cfg' kb' :
  configure json_loads py_int cfg kb = inr (cfg', kb') ->
  (length kb' <= length kb)%nat.
Proof.
  unfold configure, bind, input, ret, raise.
  destruct kb as [|l1 [|l2 [|l3 [|l4 kb4]]]]; try discriminate.
  destruct (PyStr.truthy (PyStr.strip l4));
    [destruct (json_loads (PyStr.strip l4)); [|discriminate]|];
    (destruct kb4 as [|l5 kb5]; [discriminate|]);
    (destruct (PyStr.truthy (PyStr.strip l5));
     [destruct (json_loads (PyStr.strip l5)); [|discriminate]|]);
    (destruct kb5 as [|l6 [|l7 kb7]]; try discriminate);
    (destruct (PyStr.truthy (PyStr.strip l7));
     [destruct (mapM py_int _); [|discriminate]|]);
    intros [= _ <-]; simpl; lia.
Qed.

Lemma menu_iteration_consumes cfg w kb cfg' w' kb' evs :
  menu_iteration json_loads py_int run_start cfg w kb = Next cfg' w' kb' evs ->
  (length kb' < length kb)%nat.
Proof.
  unfold menu_iteration, input.
  destruct kb as [|line kb]; [discriminate|].
  destruct (String.eqb _ "1").
  { destruct (cfg_base_url cfg) as [b|];
      [destruct (PyStr.truthy b); [destruct (run_start _ w) as [w1 [|e]]|]|];
      try discriminate; intros [= _ _ <- _]; simpl; lia. }
  destruct (String.eqb _ "2").
  { destruct (configure json_loads py_int cfg kb) as [e|[c k]] eqn:Hc;
      [discriminate|].
    intros [= _ _ <- _]. apply configure_consumes in Hc. simpl. lia. }
  destruct (String.eqb _ "3").
  { destruct kb as [|l kb]; [discriminate|].
    intros [= _ _ <- _]. simpl. lia. }
  destruct (String.eqb _ "4"); [discriminate|].
  intros [= _ _ <- _]. simpl. lia.
Qed.

Lemma menu_loop_fuel fuel1 fuel2 cfg w kb :
  (length kb < fuel1)%nat -> (length kb < fuel2)%nat ->
  menu_loop json_loads py_int run_start fuel1 cfg w kb
  = menu_loop json_loads py_int run_start fuel2 cfg w kb.
Proof.
  revert fuel2 cfg w kb.
  induction fuel1 as [|fuel1 IH]; intros [|fuel2] cfg w kb H1 H2; try lia.
  simpl.
  destruct (menu_iteration json_loads py_int run_start cfg w kb)
    as [cfg' w' kb' evs| |] eqn:Hit; try done.
  apply menu_iteration_consumes in Hit.
  rewrite (IH fuel2 cfg' w' kb'); [done|lia|lia].
Qed.

End MenuProps.

Example menu_configure_then_start :
  (interactive_menu sample_json_loads sample_int sample_run_start ([], ∅)
     ["1"; " 2 "; "http://t/"; EmptyString; "out.txt"; EmptyString; "{}";
      "GET,HEAD"; "200,404"; "1"; "9"; "4"]).1
  = ([EvMissingTarget; EvUpdated;
      EvStart (__init__ "http://t/" DEFAULT_WORDLIST "out.txt" DEFAULT_HEADERS
                 (JObject []) ["GET"; "HEAD"] [200; 404]);
      EvInvalid; EvGoodbye],
     Exited).
Proof. vm_compute. reflexivity. Qed.

(** The run cannot open its output file: the exception of [start] ends
    the session, the exit that follows on the keyboard is never read and
    no file is written. *)
Example menu_run_raises :
  let r := interactive_menu sample_json_loads sample_int sample_run_start
             ([], ∅) sample_keyboard_unwritable in
  r.1 = ([EvUpdated;
          EvStart (__init__ "http://t/" DEFAULT_WORDLIST "nodir/out.txt"
                     DEFAULT_HEADERS DEFAULT_COOKIES DEFAULT_METHODS
                     VALID_STATUS_CODES)],
         Uncaught OSError)
  /\ r.2.2 = ∅.
Proof. vm_compute. split; reflexivity. Qed.

Lemma malformed_configuration_aborts_witness :
  interactive_menu sample_json_loads sample_int sample_run_start ([], ∅)
    ["2"; "http://t/"; EmptyString; EmptyString; "{oops"; "{}"; "GET";
     "200"; "1"; "4"]
  = ([], Uncaught JSONDecodeError, ([], ∅))
  /\ menu_iteration sample_json_loads sample_int sample_run_start
       initial_config ([], ∅)
       ["2"; "http://t/"; EmptyString; EmptyString; "{}"; EmptyString; "GET";
        "200,4o4"; "1"; "4"]
     = Abort ValueError ([], ∅) [].
Proof.
  split.
  - apply (malformed_configuration_aborts sample_json_loads sample_int
             sample_run_start initial_config).
    apply malformed_headers; [reflexivity|]. split; reflexivity.
  - apply (malformed_configuration_aborts sample_json_loads sample_int).
    apply malformed_codes; [reflexivity| | |split; reflexivity].
    + right. by eexists.
    + left. reflexivity.
Defined.

(** * Further properties of the code *)

(** ** The object and the log along an execution *)

Lemma set_found_id self : set_found self (found_endpoints self) = self.
Proof. by destruct self. Qed.

Lemma set_found_set_found self X Y :
  set_found (set_found self X) Y = set_found self Y.
Proof. reflexivity. Qed.

(** [_fetch] changes nothing of the object but the discovered set, and
    appends its records to the log. *)
Lemma fetch_self self logs path method o :
  (_fetch self logs path method o).1.1
  = set_found self (found_endpoints (_fetch self logs path method o).1.1).
Proof.
  unfold _fetch. destruct o as [status|e]; simpl.
  - destruct (status_in _ _); simpl; [done|]. by rewrite set_found_id.
  - by rewrite set_found_id.
Qed.

Lemma fetch_logs self logs path method o :
  (_fetch self logs path method o).1.2 = logs ++ fetch_records self path o.
Proof.
  unfold _fetch, fetch_records. destruct o as [status|e]; simpl; [|done].
  destruct (status_in _ _); simpl; [done|]. by rewrite app_nil_r.
Qed.

Lemma fetch_records_settings self0 self path o :
  same_settings self0 self ->
  fetch_records self path o = fetch_records self0 path o.
Proof.
  intros Hset. pose proof (request_url_settings self0 self path Hset) as Hu.
  destruct Hset as (_ & Hv & _).
  unfold fetch_records. by rewrite Hu, Hv.
Qed.

Lemma batch_records_middle self0 net l1 l2 t :
  batch_records self0 net (l1 ++ t :: l2)
  = concat (imap (task_records self0 net) l1)
    ++ task_records self0 net (length l1) t
    ++ concat (imap (fun n => task_records self0 net (length l1 + S n)) l2).
Proof.
  unfold batch_records. rewrite imap_app, concat_app. f_equal.
  rewrite imap_cons. cbn [concat]. by rewrite Nat.add_0_r.
Qed.

Section LogProps.

Variable net : nat -> outcome.

Lemma same_settings_set_found self0 X : same_settings self0 (set_found self0 X).
Proof. done. Qed.

Lemma step_log_inv self0 logs0 d d' :
  step_spec net d d' -> log_inv net self0 logs0 d -> log_inv net self0 logs0 d'.
Proof.
  intros Hstep [Hself (recs & Hlogs & Hperm)]. unfold log_inv.
  destruct Hstep as [i path method n Hi Hs | i path method Hi r]; simpl.
  - split; [done|]. exists recs. split; [done|].
    destruct (insert_middle (d_tasks d) i _ (path, method, InFlight) Hi)
      as (l1 & l2 & E & -> & _).
    rewrite Hperm, E, !batch_records_middle. reflexivity.
  - subst r. split.
    + rewrite fetch_self, Hself at 1. by rewrite set_found_set_found.
    + exists (recs ++ fetch_records self0 path (net i)). split.
      * rewrite fetch_logs, Hlogs, <- app_assoc. f_equal. f_equal.
        apply fetch_records_settings. rewrite Hself.
        apply same_settings_set_found.
      * destruct (insert_middle (d_tasks d) i _
                    (path, method, Finished
                       (_fetch (d_self d) (d_logs d) path method (net i)).2)
                    Hi) as (l1 & l2 & E & -> & Hlen).
        rewrite Hperm, E, !batch_records_middle. simpl.
        unfold task_records at 2 4. simpl. rewrite Hlen.
        rewrite <- app_assoc. apply Permutation_app_head.
        apply Permutation_app_comm.
Qed.

End LogProps.

Lemma concat_imap_nil {A B} (f : nat -> A -> list B) (l : list A) :
  (forall i x, l !! i = Some x -> f i x = []) -> concat (imap f l) = [].
Proof.
  revert f. induction l as [|x l IH]; intros f Hf; [done|].
  rewrite imap_cons. simpl. rewrite (Hf O x eq_refl). simpl.
  apply IH. intros i y Hi. apply (Hf (S i) y Hi).
Qed.

Lemma init_log_inv net n self logs paths :
  log_inv net self logs (dispatch_init n self logs paths).
Proof.
  split; [simpl; by rewrite set_found_id|].
  exists []. split; [simpl; by rewrite app_nil_r|].
  unfold batch_records. rewrite concat_imap_nil; [done|].
  intros i t Hi. apply init_lookup in Hi. unfold task_records. by rewrite Hi.
Qed.

Lemma reach_log_inv net n self logs paths schedule d :
  run net schedule (dispatch_init n self logs paths) = Some d ->
  log_inv net self logs d.
Proof.
  intros Hrun.
  refine (run_invariant net (log_inv net self logs) _ schedule _ d _ Hrun).
  - intros d1 d2 H1 Hs. by eapply step_log_inv.
  - apply init_log_inv.
Qed.

Lemma batch_records_complete self0 net d items :
  batch_complete d = true ->
  map fst (d_tasks d) = items ->
  batch_records self0 net (d_tasks d) = expected_records self0 net items.
Proof.
  intros Hc <-. unfold batch_records, expected_records. f_equal.
  change (map fst (d_tasks d)) with (fst <$> d_tasks d).
  rewrite imap_fmap. apply imap_ext. intros i t Hi. simpl.
  destruct (batch_complete_lookup d i t Hc Hi) as [ret Hret].
  unfold task_records. by rewrite Hret.
Qed.

Lemma complete_steps_left d : batch_complete d = true -> steps_left d = O.
Proof.
  unfold batch_complete, steps_left, in_flight. intros Hall.
  rewrite forallb_forall in Hall.
  assert (Hnone : forall (P : string * string * task_state -> Prop)
                         `{forall t, Decision (P t)},
             (forall t, is_finished t = true -> ~ P t) ->
             filter P (d_tasks d) = []).
  { intros P Hdec HP. induction (d_tasks d) as [|t l IH]; [done|].
    rewrite filter_cons_False.
    - apply IH. intros x Hx. apply Hall. by right.
    - apply HP, Hall. by left. }
  rewrite !Hnone; [done| |];
    intros [it [| |ret]]; unfold is_finished, is_inflight, is_pending;
    simpl; congruence.
Qed.

(** ** The dispatcher at its return *)

(** X1. When [_process_paths] returns, the log is the one it started with
    followed by exactly one record per work item whose response was
    accepted or whose request raised, in some order, and nothing for the
    responses with a status outside the policy; the object differs from
    the one it started with by its discovered set only. *)
Theorem process_paths_log :
  forall (net : nat -> outcome) (self : StreamFuzz) (logs : list log_record)
         (paths : list string) (schedule : list action) (d : dispatcher),
    _process_paths net self logs paths schedule = Some d ->
    d_self d = set_found self (found_endpoints (d_self d))
    /\ exists recs,
         d_logs d = logs ++ recs
         /\ recs ≡ₚ expected_records self net (work_list paths (methods self)).
Proof.
  intros net self logs paths schedule d [Hrun Hc]%process_paths_inv.
  destruct (reach_log_inv net _ self logs paths schedule d Hrun)
    as [Hself (recs & Hlogs & Hperm)].
  split; [exact Hself|]. exists recs. split; [exact Hlogs|].
  rewrite Hperm. erewrite batch_records_complete; [done|done|].
  by eapply reach_items.
Qed.

Lemma process_paths_log_witness :
  exists recs,
    d_logs sample_returned = [] ++ recs
    /\ recs ≡ₚ [LogFound 200 "http://t/admin";
                LogFetchError "http://t/admin" "timeout";
                LogFound 401 "http://t/login"].
Proof.
  destruct (process_paths_log sample_net sample_dispatcher_self []
              sample_paths sample_schedule sample_returned sample_returns)
    as (_ & recs & Hlogs & Hperm).
  exists recs. split; [exact Hlogs|]. exact Hperm.
Defined.

(** X2. Every execution in which [_process_paths] returns takes exactly
    two steps per work item (each coroutine enters once and ends once:
    there is no retry), and leaves no call in flight and every slot of the
    semaphore released. *)
Theorem process_paths_releases :
  forall (net : nat -> outcome) (self : StreamFuzz) (logs : list log_record)
         (paths : list string) (schedule : list action) (d : dispatcher),
    _process_paths net self logs paths schedule = Some d ->
    length schedule = (2 * (length paths * length (methods self)))%nat
    /\ in_flight d = O
    /\ d_sem d = MAX_CONCURRENT_REQUESTS.
Proof.
  intros net self logs paths schedule d [Hrun Hc]%process_paths_inv.
  pose proof (run_length net schedule _ d Hrun) as Hlen.
  pose proof (complete_steps_left d Hc) as Hz.
  pose proof (reach_slots net _ self logs paths schedule d Hrun) as Hslots.
  rewrite init_steps_left, length_work_list, Hz in Hlen.
  unfold steps_left in Hz. split; [lia|]. split; lia.
Qed.

Lemma process_paths_releases_witness :
  length sample_schedule = 8%nat
  /\ in_flight sample_returned = O
  /\ d_sem sample_returned = 100%nat.
Proof.
  exact (process_paths_releases sample_net sample_dispatcher_self []
           sample_paths sample_schedule sample_returned sample_returns).
Defined.

Lemma work_list_nil paths methods :
  paths = [] \/ methods = [] -> work_list paths methods = [].
Proof.
  intros [-> | ->]; [done|]. unfold work_list.
  induction paths as [|p paths IH]; [done|]. simpl. exact IH.
Qed.

(** X3. With no candidate or no method there is nothing to schedule: the
    only execution in which [_process_paths] returns is the empty one, and
    it returns at once with the object and the log untouched and no call
    of [_fetch] made. *)
Theorem process_paths_empty :
  forall (net : nat -> outcome) (self : StreamFuzz) (logs : list log_record)
         (paths : list string) (schedule : list action) (d : dispatcher),
    paths = [] \/ methods self = [] ->
    (_process_paths net self logs paths schedule = Some d
     <-> schedule = []
         /\ d = {| d_self := self; d_logs := logs;
                   d_sem := MAX_CONCURRENT_REQUESTS;
                   d_tasks := []; d_calls := [] |}).
Proof.
  intros net self logs paths schedule d Hempty.
  apply work_list_nil in Hempty.
  assert (Hinit : dispatch_init MAX_CONCURRENT_REQUESTS self logs paths
                  = {| d_self := self; d_logs := logs;
                       d_sem := MAX_CONCURRENT_REQUESTS;
                       d_tasks := []; d_calls := [] |}).
  { unfold dispatch_init. by rewrite Hempty. }
  split.
  - intros [Hrun Hc]%process_paths_inv.
    pose proof (run_length net schedule _ d Hrun) as Hlen.
    rewrite init_steps_left, Hempty in Hlen. simpl in Hlen.
    destruct schedule as [|a schedule]; [|simpl in Hlen; lia].
    simpl in Hrun. split; [done|]. congruence.
  - intros [-> ->]. unfold _process_paths. rewrite Hinit. reflexivity.
Qed.

Lemma process_paths_empty_witness :
  _process_paths sample_net
    (__init__ "http://t/" DEFAULT_WORDLIST DEFAULT_OUTPUT DEFAULT_HEADERS
       DEFAULT_COOKIES [] VALID_STATUS_CODES)
    [] sample_paths []
  = Some {| d_self := __init__ "http://t/" DEFAULT_WORDLIST DEFAULT_OUTPUT
                        DEFAULT_HEADERS DEFAULT_COOKIES [] VALID_STATUS_CODES;
            d_logs := []; d_sem := MAX_CONCURRENT_REQUESTS;
            d_tasks := []; d_calls := [] |}.
Proof.
  apply process_paths_empty; [right; reflexivity|]. split; reflexivity.
Defined.

Lemma inflight_pending_le (l : list (string * string * task_state)) :
  (length (filter (fun t => is_inflight t = true) l)
   + length (filter (fun t => is_pending t = true) l) <= length l)%nat.
Proof.
  induction l as [|[it st] l IH]; [done|].
  rewrite !filter_cons. destruct st; simpl; repeat case_decide;
    simpl in *; try done; lia.
Qed.

Lemma pending_lookup_count (l : list (string * string * task_state)) i it :
  l !! i = Some (it, Pending) ->
  (1 <= length (filter (fun t => is_pending t = true) l))%nat.
Proof.
  intros Hi.
  assert (Hin : (it, Pending) ∈ filter (fun t => is_pending t = true) l).
  { apply list_elem_of_filter. split; [done|]. by eapply list_elem_of_lookup_2. }
  destruct (filter _ l); [by apply elem_of_nil in Hin|]. simpl. lia.
Qed.

(** X4. A batch of at most [MAX_CONCURRENT_REQUESTS] work items is never
    held back by the semaphore: at every instant of every execution, any
    coroutine that is still pending can enter. *)
Theorem small_batch_never_waits :
  forall (net : nat -> outcome) (self : StreamFuzz) (logs : list log_record)
         (paths : list string) (schedule : list action) (d : dispatcher)
         (i : nat) (path method : string),
    (length paths * length (methods self) <= MAX_CONCURRENT_REQUESTS)%nat ->
    run net schedule (dispatch_init MAX_CONCURRENT_REQUESTS self logs paths)
    = Some d ->
    d_tasks d !! i = Some (path, method, Pending) ->
    exists d', step net (Acquire i) d = Some d'.
Proof.
  intros net self logs paths schedule d i path method Hsmall Hrun Hi.
  pose proof (reach_slots net _ self logs paths schedule d Hrun) as Hslots.
  pose proof (reach_items net _ self logs paths schedule d Hrun) as Hitems.
  apply (f_equal length) in Hitems.
  rewrite length_map, length_work_list in Hitems.
  pose proof (inflight_pending_le (d_tasks d)) as Hle.
  pose proof (pending_lookup_count (d_tasks d) i _ Hi) as Hpos.
  unfold in_flight in Hslots.
  destruct (d_sem d) as [|n] eqn:Hs; [lia|].
  simpl. rewrite Hi, Hs. by eexists.
Qed.

Lemma small_batch_never_waits_witness :
  exists d', step sample_net (Acquire 3) sample_in_flight = Some d'.
Proof.
  apply (small_batch_never_waits sample_net sample_dispatcher_self []
           sample_paths [Acquire 2; Acquire 0] sample_in_flight 3
           "/login" "GET").
  - vm_compute. lia.
  - vm_compute. reflexivity.
  - vm_compute. reflexivity.
Defined.

(** X5. At every instant of every execution, a discovered URL that the
    object did not hold at the start is the URL of a scheduled work item:
    the target, one separator, and a candidate without its leading
    separators.  Nothing else is ever recorded. *)
Theorem discovered_urls_are_scheduled :
  forall (net : nat -> outcome) (n : nat) (self : StreamFuzz)
         (logs : list log_record) (paths : list string)
         (schedule : list action) (d : dispatcher) (u : string),
    run net schedule (dispatch_init n self logs paths) = Some d ->
    u ∈ found_endpoints (d_self d) ->
    u ∈ found_endpoints self
    \/ exists path method,
         path ∈ paths /\ method ∈ methods self
         /\ u = base_url self +:+ "/" +:+ PyStr.lstrip_char "/" path.
Proof.
  intros net n self logs paths schedule d u Hrun Hu.
  destruct (reach_found net n self logs paths schedule d Hrun) as [_ Hfound].
  apply Hfound in Hu as [Hu | (i & path & method & ret & Hi & Hurl & _)];
    [by left|].
  right. exists path, method.
  assert (Hin : (path, method) ∈ work_list paths (methods self)).
  { rewrite <- (reach_items net n self logs paths schedule d Hrun).
    apply list_elem_of_In, in_map_iff. exists (path, method, Finished ret).
    split; [done|]. apply list_elem_of_In. by eapply list_elem_of_lookup_2. }
  apply elem_of_work_list in Hin as [Hp Hm]. by rewrite <- Hurl.
Qed.

Lemma discovered_urls_are_scheduled_witness :
  ∅ = ({[ "http://t/login" ]} : gset string)
  \/ exists path method,
       path ∈ sample_paths /\ method ∈ ["HEAD"; "GET"]
       /\ "http://t/login" = "http://t" +:+ "/" +:+ PyStr.lstrip_char "/" path.
Proof.
  destruct (discovered_urls_are_scheduled sample_net MAX_CONCURRENT_REQUESTS
              sample_dispatcher_self [] sample_paths sample_schedule
              sample_returned "http://t/login") as [H|H].
  - vm_compute. reflexivity.
  - compute_decide.
  - by apply elem_of_empty in H.
  - right. exact H.
Defined.

(** ** Whole runs: [start] *)

Lemma start_inv net writable self logs fs schedule self' logs' fs' c :
  start net writable self logs fs schedule = Some (self', logs', fs', c) ->
  exists d,
    _process_paths net self (logs ++ [LogLoaded (length (_load_wordlist self fs))])
      (_load_wordlist self fs) schedule = Some d
    /\ self' = d_self d
    /\ (logs', fs', c) = _save_results writable (d_self d) (d_logs d) fs.
Proof.
  unfold start.
  destruct (_process_paths _ _ _ _ _) as [d|] eqn:Hret; [|discriminate].
  destruct (_save_results _ _ _ _) as [[l f] c'] eqn:Hsave.
  intros [= <- <- <- <-]. by exists d.
Qed.

(** X6. A run of [start] is the composition of its three stages.  When it
    returns, the discovered set is the one the object had together with
    the URLs of the work items (loaded candidates by methods) whose
    response was accepted; the log begins with the log before and the
    count of loaded candidates; and the file system is the one before when
    nothing is discovered, and otherwise differs from it in the output
    file only, which holds the discovered URLs sorted, one per line. *)
Theorem start_spec :
  forall (net : nat -> outcome) (writable : string -> bool)
         (self : StreamFuzz) (logs : list log_record)
         (fs : filesystem) (schedule : list action) (self' : StreamFuzz)
         (logs' : list log_record) (fs' : filesystem),
    start net writable self logs fs schedule
    = Some (self', logs', fs', Returned) ->
    let paths := _load_wordlist self fs in
    let items := work_list paths (methods self) in
    self' = set_found self (found_endpoints self')
    /\ (forall u,
          u ∈ found_endpoints self'
          <-> u ∈ found_endpoints self
              \/ exists i path method,
                   items !! i = Some (path, method)
                   /\ request_url self path = u
                   /\ accepted self (net i) = true)
    /\ (exists rest, logs' = logs ++ LogLoaded (length paths) :: rest)
    /\ (found_endpoints self' = ∅ ->
        fs' = fs /\ last logs' = Some LogNoEndpoints)
    /\ (found_endpoints self' <> ∅ ->
        fs' = <[output_file self
                := write_lines (sorted (elements (found_endpoints self')))]> fs
        /\ last logs' = Some (LogSaved (output_file self))).
Proof.
  intros net writable self logs fs schedule self' logs' fs' Hstart paths
    items.
  apply start_inv in Hstart as (d & Hret & -> & Hsave).
  fold paths in Hret.
  destruct (process_paths_inv _ _ _ _ _ _ Hret) as [Hrun Hc].
  destruct (reach_log_inv net _ self _ paths schedule d Hrun)
    as [Hself (recs & Hlogs & _)].
  destruct (reach_found net _ self _ paths schedule d Hrun)
    as [(_ & _ & _ & Hout & _) _].
  split; [exact Hself|].
  split; [intros u; exact (returned_found _ _ _ _ _ _ u Hret)|].
  unfold _save_results in Hsave. rewrite Hout in Hsave.
  split; [|split].
  - destruct (bool_decide _); [|destruct (writable _); [|discriminate]];
      injection Hsave as -> _; rewrite Hlogs;
      rewrite <- !app_assoc; simpl; by eexists.
  - intros He. rewrite bool_decide_eq_true_2 in Hsave by done.
    injection Hsave as -> ->. split; [done|]. apply last_snoc.
  - intros Hne. rewrite bool_decide_eq_false_2 in Hsave by done.
    destruct (writable _); [|discriminate].
    injection Hsave as -> ->. split; [done|]. apply last_snoc.
Qed.

Lemma start_spec_witness :
  let r := default (sample_fuzzer, [], ∅) sample_run in
  (exists rest, r.1.2 = [] ++ LogLoaded 5 :: rest)
  /\ r.2 = <[DEFAULT_OUTPUT
            := write_lines (sorted (elements (found_endpoints r.1.1)))]> ∅
  /\ last r.1.2 = Some (LogSaved DEFAULT_OUTPUT).
Proof.
  intros r.
  destruct (start_spec (fun _ => Response 200) (fun _ => true) sample_fuzzer
              [] ∅ (sequential_schedule 5) r.1.1 r.1.2 r.2)
    as (_ & _ & Hlog & _ & Hne); [vm_compute; reflexivity|].
  split; [exact Hlog|]. apply Hne. compute_decide.
Defined.

(** X7. The result of a run does not depend on the order in which the
    requests are served: two executions of [start], from the same object
    and files and with the same outcomes for the requests and for the
    opening of the output file, leave the same object and the same files,
    logs that differ by the order of their records only, and end the same
    way (both return, or the same exception leaves both). *)
Theorem start_schedule_independent :
  forall (net : nat -> outcome) (writable : string -> bool)
         (self : StreamFuzz) (logs : list log_record)
         (fs : filesystem) (s1 s2 : list action)
         (self1 self2 : StreamFuzz) (logs1 logs2 : list log_record)
         (fs1 fs2 : filesystem) (c1 c2 : ending),
    start net writable self logs fs s1 = Some (self1, logs1, fs1, c1) ->
    start net writable self logs fs s2 = Some (self2, logs2, fs2, c2) ->
    self1 = self2 /\ fs1 = fs2 /\ logs1 ≡ₚ logs2 /\ c1 = c2.
Proof.
  intros net writable self logs fs s1 s2 self1 self2 logs1 logs2 fs1 fs2
    c1 c2 H1 H2.
  apply start_inv in H1 as (d1 & Hret1 & -> & Hsave1).
  apply start_inv in H2 as (d2 & Hret2 & -> & Hsave2).
  destruct (process_paths_inv _ _ _ _ _ _ Hret1) as [Hrun1 Hc1].
  destruct (process_paths_inv _ _ _ _ _ _ Hret2) as [Hrun2 Hc2].
  destruct (reach_log_inv _ _ _ _ _ _ _ Hrun1)
    as [Hself1 (recs1 & Hlogs1 & Hperm1)].
  destruct (reach_log_inv _ _ _ _ _ _ _ Hrun2)
    as [Hself2 (recs2 & Hlogs2 & Hperm2)].
  assert (Hfound : found_endpoints (d_self d1) = found_endpoints (d_self d2)).
  { apply set_eq. intros u.
    rewrite (returned_found _ _ _ _ _ _ u Hret1).
    by rewrite (returned_found _ _ _ _ _ _ u Hret2). }
  assert (Hself : d_self d1 = d_self d2) by (by rewrite Hself1, Hself2, Hfound).
  assert (Hrecs : recs1 ≡ₚ recs2).
  { rewrite Hperm1, Hperm2.
    rewrite (batch_records_complete self net d1 _ Hc1
               (reach_items _ _ _ _ _ _ _ Hrun1)).
    by rewrite (batch_records_complete self net d2 _ Hc2
                  (reach_items _ _ _ _ _ _ _ Hrun2)). }
  split; [exact Hself|].
  unfold _save_results in Hsave1, Hsave2. rewrite <- Hself in Hsave2.
  destruct (bool_decide _); [|destruct (writable _)];
    injection Hsave1 as -> -> ->; injection Hsave2 as -> -> ->;
    (split; [done|]); (split; [|done]);
    rewrite Hlogs1, Hlogs2; by rewrite Hrecs.
Qed.

Lemma start_schedule_independent_witness :
  let r1 := default (sample_fuzzer, [], ∅) sample_run in
  let r2 := default (sample_fuzzer, [], ∅, Returned)
              (start (fun _ => Response 200) (fun _ => true) sample_fuzzer []
                 ∅
                 (map Acquire (seq 0 5) ++ map Complete [4; 2; 0; 3; 1]%nat)) in
  r1.1.1 = r2.1.1.1 /\ r1.2 = r2.1.2 /\ r1.1.2 ≡ₚ r2.1.1.2
  /\ Returned = r2.2.
Proof.
  intros r1 r2.
  apply (start_schedule_independent (fun _ => Response 200) (fun _ => true)
           sample_fuzzer [] ∅ (sequential_schedule 5)
           (map Acquire (seq 0 5) ++ map Complete [4; 2; 0; 3; 1]%nat)
           r1.1.1 r2.1.1.1 r1.1.2 r2.1.1.2 r1.2 r2.1.2 Returned r2.2);
    vm_compute; reflexivity.
Defined.

(** ** URLs and candidates *)

Lemma append_inj_l (s a b : string) : s +:+ a = s +:+ b -> a = b.
Proof.
  induction s as [|c s IH]; [done|].
  rewrite !append_cons. intros [= H]. by apply IH.
Qed.

(** X8. Two candidates are probed at the same URL exactly when they differ
    by their leading separators only. *)
Theorem request_url_collision :
  forall (self : StreamFuzz) (p1 p2 : string),
    request_url self p1 = request_url self p2
    <-> PyStr.lstrip_char "/" p1 = PyStr.lstrip_char "/" p2.
Proof.
  intros self p1 p2. unfold request_url. split.
  - intros H. apply append_inj_l in H. by apply append_inj_l in H.
  - by intros ->.
Qed.

Lemma request_url_collision_witness :
  request_url sample_fuzzer "//admin" = request_url sample_fuzzer "admin"
  /\ PyStr.lstrip_char "/" "a/b" = PyStr.lstrip_char "/" "/a/b".
Proof.
  split.
  - apply request_url_collision. reflexivity.
  - apply (request_url_collision sample_fuzzer). reflexivity.
Defined.

Lemma lstrip_by_head_kept P s : head_kept P (PyStr.lstrip_by P s).
Proof.
  induction s as [|c s IH]; simpl; [done|].
  destruct (P c) eqn:E; [exact IH | exact E].
Qed.

Lemma lstrip_by_fix P s : head_kept P s -> PyStr.lstrip_by P s = s.
Proof. destruct s as [|c s]; simpl; [done|]. by intros ->. Qed.

Lemma rstrip_by_head_kept P s :
  head_kept P s -> head_kept P (PyStr.rstrip_by P s).
Proof.
  destruct s as [|c s]; simpl; [done|]. intros Hc.
  destruct (PyStr.rstrip_by P s); [by rewrite Hc|done].
Qed.

Lemma rstrip_by_idemp P s :
  PyStr.rstrip_by P (PyStr.rstrip_by P s) = PyStr.rstrip_by P s.
Proof.
  induction s as [|c s IH]; simpl; [done|].
  destruct (PyStr.rstrip_by P s) as [|c' r] eqn:Er.
  - destruct (P c) eqn:Ec; simpl; [done|]. by rewrite Ec.
  - change (PyStr.rstrip_by P (String c (String c' r)))
      with (match PyStr.rstrip_by P (String c' r) with
            | EmptyString => if P c then EmptyString else String c EmptyString
            | r0 => String c r0
            end).
    by rewrite IH.
Qed.

Lemma strip_idemp s : PyStr.strip (PyStr.strip s) = PyStr.strip s.
Proof.
  unfold PyStr.strip.
  rewrite (lstrip_by_fix PyStr.is_space
             (PyStr.rstrip_by PyStr.is_space (PyStr.lstrip_by PyStr.is_space s))).
  - apply rstrip_by_idemp.
  - apply rstrip_by_head_kept, lstrip_by_head_kept.
Qed.

(** X9. Every loaded candidate that is not a built-in path comes from the
    file already trimmed: it is not empty and stripping it again changes
    nothing, so no candidate read from the file begins or ends with
    whitespace. *)
Theorem loaded_candidates_trimmed :
  forall (common_paths : list string) (self : StreamFuzz) (fs : filesystem)
         (c : string),
    c ∈ _load_wordlist_with common_paths self fs ->
    c ∈ common_paths
    \/ (c <> EmptyString /\ PyStr.strip c = c
        /\ head_kept PyStr.is_space c).
Proof.
  intros common_paths self fs c. unfold _load_wordlist_with.
  rewrite elem_of_elements, elem_of_list_to_set.
  destruct (fs !! wordlist self) as [content|]; simpl; [|by left].
  rewrite elem_of_app. intros [Hc | Hc]; [|by left]. right.
  apply list_elem_of_fmap in Hc as (line & -> & Hline).
  apply list_elem_of_filter in Hline as [Ht _].
  split; [by apply truthy_spec|]. split; [apply strip_idemp|].
  unfold PyStr.strip. apply rstrip_by_head_kept, lstrip_by_head_kept.
Qed.

Lemma loaded_candidates_trimmed_witness :
  "x" ∈ ["admin"]
  \/ ("x" <> EmptyString /\ PyStr.strip "x" = "x"
      /\ head_kept PyStr.is_space "x").
Proof.
  apply (loaded_candidates_trimmed ["admin"] sample_fuzzer
           {[ DEFAULT_WORDLIST := "  x " +:+ LF +:+ "  " +:+ LF ]} "x").
  compute_decide.
Defined.

(** X10. The built-in paths are always among the candidates, whatever the
    wordlist file holds and whether it exists: a run never has fewer than
    five candidates, hence never fewer than five requests per method. *)
Theorem builtin_paths_always_loaded :
  forall (self : StreamFuzz) (fs : filesystem),
    (forall c, c ∈ COMMON_PATHS -> c ∈ _load_wordlist self fs)
    /\ (5 <= length (_load_wordlist self fs))%nat
    /\ (5 * length (methods self)
        <= length (work_list (_load_wordlist self fs) (methods self)))%nat.
Proof.
  intros self fs.
  assert (Hin : forall c, c ∈ COMMON_PATHS -> c ∈ _load_wordlist self fs).
  { intros c Hc. unfold _load_wordlist, _load_wordlist_with.
    rewrite elem_of_elements, elem_of_list_to_set.
    apply elem_of_app. by right. }
  assert (Hlen : (5 <= length (_load_wordlist self fs))%nat).
  { change 5%nat with (length COMMON_PATHS).
    apply submseteq_length, NoDup_submseteq; [|exact Hin].
    compute_decide. }
  split; [exact Hin|]. split; [exact Hlen|].
  rewrite length_work_list. nia.
Qed.

Lemma builtin_paths_always_loaded_witness :
  "/api" ∈ _load_wordlist sample_fuzzer ∅.
Proof.
  apply (builtin_paths_always_loaded sample_fuzzer ∅). compute_decide.
Defined.

(** ** Splitting and joining the methods *)

Lemma split_char_nonempty sep s : PyStr.split_char sep s <> [].
Proof.
  destruct s as [|c s]; simpl; [done|].
  destruct (Ascii.eqb c sep); [done|].
  by destruct (PyStr.split_char sep s).
Qed.

Lemma py_join_cons sep p q rest :
  py_join sep (p :: q :: rest) = p +:+ sep +:+ py_join sep (q :: rest).
Proof. reflexivity. Qed.

Lemma py_join_split sep s :
  py_join (String sep EmptyString) (PyStr.split_char sep s) = s.
Proof.
  induction s as [|c s IH]; [done|]. simpl.
  destruct (Ascii.eqb c sep) eqn:Ec.
  - apply Ascii.eqb_eq in Ec. subst c.
    destruct (PyStr.split_char sep s) as [|w ws] eqn:Es;
      [by apply split_char_nonempty in Es|].
    rewrite py_join_cons, IH. reflexivity.
  - destruct (PyStr.split_char sep s) as [|w ws] eqn:Es;
      [by apply split_char_nonempty in Es|].
    destruct ws as [|w' ws]; simpl in *; [by rewrite IH|].
    rewrite <- IH. reflexivity.
Qed.

Lemma split_char_pieces sep s :
  Forall (fun p => contains_char sep p = false) (PyStr.split_char sep s).
Proof.
  induction s as [|c s IH]; simpl; [by repeat constructor|].
  destruct (Ascii.eqb c sep) eqn:Ec; [by constructor|].
  destruct (PyStr.split_char sep s) as [|w ws]; [by repeat constructor; simpl; rewrite Ec|].
  inversion IH as [|? ? Hw Hws]; subst. constructor; [|done].
  simpl. by rewrite Ec.
Qed.

Lemma split_char_piece sep p :
  contains_char sep p = false -> PyStr.split_char sep p = [p].
Proof.
  induction p as [|c p IH]; simpl; [done|].
  intros [Hc Hp]%orb_false_iff. rewrite Hc, (IH Hp). reflexivity.
Qed.

Lemma split_char_app sep p rest :
  contains_char sep p = false ->
  PyStr.split_char sep (p +:+ String sep EmptyString +:+ rest)
  = p :: PyStr.split_char sep rest.
Proof.
  induction p as [|c p IH]; intros Hp.
  - rewrite !append_nil, append_cons, append_nil. simpl.
    by rewrite Ascii.eqb_refl.
  - simpl in Hp. apply orb_false_iff in Hp as [Hc Hp].
    rewrite append_cons. simpl. rewrite Hc, (IH Hp). reflexivity.
Qed.

(** X11. Splitting an entry at the commas and joining the pieces with
    commas are inverse to each other: the pieces joined give back the
    entry, nothing being trimmed or dropped; no piece holds a comma and
    there is at least one; and a non-empty list of methods without commas,
    joined as the prompt shows it, splits back into the same list. *)
Theorem methods_split_join :
  forall (entry : string) (methods : list string),
    py_join "," (PyStr.split_char "," entry) = entry
    /\ PyStr.split_char "," entry <> []
    /\ Forall (fun p => contains_char "," p = false)
              (PyStr.split_char "," entry)
    /\ (methods <> [] ->
        Forall (fun p => contains_char "," p = false) methods ->
        PyStr.split_char "," (py_join "," methods) = methods).
Proof.
  intros entry methods.
  split; [apply py_join_split|].
  split; [apply split_char_nonempty|].
  split; [apply split_char_pieces|].
  intros Hne Hall. induction Hall as [|p rest Hp Hrest IH]; [done|].
  destruct rest as [|q rest].
  - simpl. by apply split_char_piece.
  - rewrite py_join_cons, split_char_app by done.
    f_equal. by apply IH.
Qed.

Lemma methods_split_join_witness :
  PyStr.split_char "," (py_join "," ["GET"; " HEAD"; EmptyString])
  = ["GET"; " HEAD"; EmptyString].
Proof.
  apply (methods_split_join EmptyString ["GET"; " HEAD"; EmptyString]);
    [discriminate|].
  repeat constructor.
Defined.

(** ** The shell: what a pass and a session can do *)

Section MenuSessions.

Variable json_loads : string -> option json.
Variable py_int : string -> option Z.
Context {world : Type}.
Variable run_start : StreamFuzz -> world -> world * ending.

(** What option 2 leaves when every entry is accepted. *)
Lemma configure_inv cfg kb cfg' kb' :
  configure json_loads py_int cfg kb = inr (cfg', kb') ->
  exists u w o h k m s,
    kb = u :: w :: o :: h :: k :: m :: s :: kb'
    /\ cfg_base_url cfg'
       = (if PyStr.truthy (PyStr.strip u) then Some (PyStr.strip u)
          else cfg_base_url cfg)
    /\ cfg_wordlist cfg' = or_else (PyStr.strip w) (cfg_wordlist cfg)
    /\ cfg_output_file cfg' = or_else (PyStr.strip o) (cfg_output_file cfg)
    /\ cfg_methods cfg'
       = (if PyStr.truthy (PyStr.strip m)
          then PyStr.split_char "," (PyStr.strip m)
          else cfg_methods cfg)
    /\ (if PyStr.truthy (PyStr.strip h)
        then json_loads (PyStr.strip h) = Some (cfg_headers cfg')
        else cfg_headers cfg' = cfg_headers cfg)
    /\ (if PyStr.truthy (PyStr.strip k)
        then json_loads (PyStr.strip k) = Some (cfg_cookies cfg')
        else cfg_cookies cfg' = cfg_cookies cfg)
    /\ (if PyStr.truthy (PyStr.strip s)
        then mapM py_int (PyStr.split_char "," (PyStr.strip s))
             = Some (cfg_valid_status_codes cfg')
        else cfg_valid_status_codes cfg' = cfg_valid_status_codes cfg).
Proof.
  unfold configure, bind, input, ret, raise.
  destruct kb as [|u [|w [|o [|h kb4]]]]; try discriminate.
  destruct (PyStr.truthy (PyStr.strip h)) eqn:Eh;
    [destruct (json_loads (PyStr.strip h)) eqn:Jh; [|discriminate]|];
    (destruct kb4 as [|k kb5]; [discriminate|]);
    (destruct (PyStr.truthy (PyStr.strip k)) eqn:Ek;
     [destruct (json_loads (PyStr.strip k)) eqn:Jk; [|discriminate]|]);
    (destruct kb5 as [|m [|s kb7]]; try discriminate);
    (destruct (PyStr.truthy (PyStr.strip s)) eqn:Es;
     [destruct (mapM py_int _) eqn:Js; [|discriminate]|]);
    intros [= <- <-]; exists u, w, o, h, k, m, s; simpl;
    rewrite ?Eh, ?Ek, ?Es; repeat split; done.
Qed.

(** X12. Pressing Enter at every prompt of option 2 (or typing blanks
    only) keeps every setting: the pass reads exactly the seven entries
    and leaves the configuration as it was. *)
Theorem configure_blank_keeps_settings :
  forall (cfg : config) (u w o h k m s : string) (kb : list string),
    blank u -> blank w -> blank o -> blank h -> blank k -> blank m ->
    blank s ->
    configure json_loads py_int cfg (u :: w :: o :: h :: k :: m :: s :: kb)
    = inr (cfg, kb).
Proof.
  unfold blank. intros cfg u w o h k m s kb Hu Hw Ho Hh Hk Hm Hs.
  unfold configure, bind, input, ret, or_else.
  rewrite Hu, Hw, Ho, Hh, Hk, Hm, Hs. by destruct cfg.
Qed.

(** The events and the settings a pass can leave. *)
Lemma menu_iteration_shape cfg w kb :
  match menu_iteration json_loads py_int run_start cfg w kb with
  | Next cfg' w' kb' evs =>
      (evs = [EvUpdated]
       /\ exists line rest,
            kb = line :: rest /\ PyStr.strip line = "2"
            /\ configure json_loads py_int cfg rest = inr (cfg', kb'))
      \/ (cfg' = cfg
          /\ (evs = [EvMissingTarget] \/ evs = [EvView cfg]
              \/ evs = [EvInvalid]
              \/ exists b,
                   cfg_base_url cfg = Some b
                   /\ evs = [EvStart (fuzzer_of cfg b)]))
  | Stop w' evs => evs = [EvGoodbye]
  | Abort e w' evs =>
      evs = [] \/ evs = [EvView cfg]
      \/ exists b,
           cfg_base_url cfg = Some b
           /\ evs = [EvStart (fuzzer_of cfg b)]
           /\ run_start (fuzzer_of cfg b) w = (w', Raised e)
  end.
Proof.
  unfold menu_iteration, input.
  destruct kb as [|line kb]; [by left|].
  destruct (String.eqb (PyStr.strip line) "1").
  { destruct (cfg_base_url cfg) as [b|] eqn:Eb;
      [destruct (PyStr.truthy b);
       [cbv zeta; fold (fuzzer_of cfg b);
        destruct (run_start (fuzzer_of cfg b) w) as [w1 [|e]] eqn:Hrun|]|].
    - right. split; [done|]. eauto 6.
    - right. right. by exists b.
    - right. split; [done|]. eauto 6.
    - right. split; [done|]. eauto 6. }
  destruct (String.eqb (PyStr.strip line) "2") eqn:E2.
  { apply String.eqb_eq in E2.
    destruct (configure json_loads py_int cfg kb) as [e|[c k]] eqn:Hc;
      [by left|].
    left. split; [done|]. by exists line, kb. }
  destruct (String.eqb (PyStr.strip line) "3").
  { destruct kb as [|l kb]; [right; by left|]. right. eauto. }
  destruct (String.eqb (PyStr.strip line) "4"); [done|].
  right. eauto.
Qed.

(** X13. The settings change in no pass but one in which the operator
    chose option 2 and every entry was accepted; starting a run, viewing
    the settings and a wrong choice leave them as they are. *)
Theorem settings_change_only_in_configure :
  forall (cfg cfg' : config) (w w' : world) (kb kb' : list string)
         (evs : list menu_event),
    menu_iteration json_loads py_int run_start cfg w kb
    = Next cfg' w' kb' evs ->
    cfg' <> cfg ->
    evs = [EvUpdated]
    /\ exists line rest,
         kb = line :: rest /\ PyStr.strip line = "2"
         /\ configure json_loads py_int cfg rest = inr (cfg', kb').
Proof.
  intros cfg cfg' w w' kb kb' evs Hit Hne.
  pose proof (menu_iteration_shape cfg w kb) as Hshape.
  rewrite Hit in Hshape.
  destruct Hshape as [H | [Heq _]]; [exact H | contradiction].
Qed.

Lemma configure_methods cfg kb cfg' kb' :
  configure json_loads py_int cfg kb = inr (cfg', kb') ->
  cfg_methods cfg <> [] -> cfg_methods cfg' <> [].
Proof.
  intros (u & w & o & h & k & m & s & _ & _ & _ & _ & Hm & _)%configure_inv.
  rewrite Hm. destruct (PyStr.truthy _); [intros _|done].
  apply split_char_nonempty.
Qed.

Lemma fuzzer_of_fresh cfg b :
  cfg_methods cfg <> [] ->
  found_endpoints (fuzzer_of cfg b) = ∅
  /\ PyStr.last_char (base_url (fuzzer_of cfg b)) <> Some "/"%char
  /\ methods (fuzzer_of cfg b) <> [].
Proof.
  intros Hm. split; [done|]. split; [apply rstrip_char_last | exact Hm].
Qed.

(** Along the loop: a run is started with a fresh object on a target set
    by an earlier pass through option 2. *)
Lemma menu_loop_runs fuel cfg w kb evs r w' :
  menu_loop json_loads py_int run_start fuel cfg w kb = (evs, r, w') ->
  cfg_methods cfg <> [] ->
  forall evs1 f evs2,
    evs = evs1 ++ EvStart f :: evs2 ->
    (cfg_base_url cfg = None -> EvUpdated ∈ evs1)
    /\ found_endpoints f = ∅
    /\ PyStr.last_char (base_url f) <> Some "/"%char
    /\ methods f <> [].
Proof.
  revert cfg w kb evs r w'.
  induction fuel as [|fuel IH]; intros cfg w kb evs r w'; simpl.
  { intros [= <- _ _] _ [|e evs1] f evs2; discriminate. }
  pose proof (menu_iteration_shape cfg w kb) as Hshape.
  destruct (menu_iteration json_loads py_int run_start cfg w kb)
    as [cfg' w1 kb' evs0|w1 evs0|e w1 evs0].
  - destruct (menu_loop json_loads py_int run_start fuel cfg' w1 kb')
      as [[evs' r'] w2] eqn:Hloop.
    intros [= <- <- <-] Hm evs1 f evs2 Hsplit.
    assert (Hone : exists e0, evs0 = [e0]).
    { destruct Hshape as [[-> _] | [_ [-> | [-> | [-> | (b & _ & ->)]]]]];
        eauto. }
    destruct Hone as [e0 ->].
    assert (Hm' : cfg_methods cfg' <> []).
    { destruct Hshape as [[_ (line & rest & _ & _ & Hc)] | [-> _]]; [|done].
      by eapply configure_methods. }
    destruct evs1 as [|e1 evs1]; simpl in Hsplit.
    + injection Hsplit as -> _.
      destruct Hshape as [[[=] _] | [-> [[=] | [[=] | [[=] | (b & Hb & [= ->])]]]]].
      split; [congruence|]. by apply fuzzer_of_fresh.
    + injection Hsplit as <- Hsplit.
      destruct (IH cfg' w1 kb' evs' r' w2 Hloop Hm' evs1 f evs2 Hsplit)
        as (Hupd & Hrest).
      split; [|exact Hrest]. intros Hnone.
      destruct Hshape as [[[= ->] _] | [-> _]]; [by left|].
      right. by apply Hupd.
  - intros [= <- _ _] _ evs1 f evs2 Hsplit. subst evs0.
    destruct evs1 as [|e1 [|e2 evs1]]; discriminate.
  - intros [= <- _ _] Hm evs1 f evs2 Hsplit.
    destruct Hshape as [-> | [-> | (b & Hb & -> & _)]];
      try (destruct evs1 as [|e1 [|e2 evs1]]; discriminate).
    destruct evs1 as [|e1 [|e2 evs1]]; try discriminate.
    injection Hsplit as <-.
    split; [congruence|]. by apply fuzzer_of_fresh.
Qed.

(** X14. In a session, a run is never started before a pass through
    option 2 has been accepted (the loop begins with no target); and every
    run is started on a fresh object: an empty discovered set, a target
    without trailing separator, at least one method. *)
Theorem runs_follow_configuration :
  forall (w w' : world) (kb : list string) (evs : list menu_event)
         (r : menu_result) (evs1 evs2 : list menu_event) (f : StreamFuzz),
    interactive_menu json_loads py_int run_start w kb = (evs, r, w') ->
    evs = evs1 ++ EvStart f :: evs2 ->
    EvUpdated ∈ evs1
    /\ found_endpoints f = ∅
    /\ PyStr.last_char (base_url f) <> Some "/"%char
    /\ methods f <> [].
Proof.
  intros w w' kb evs r evs1 evs2 f Hmenu Hsplit.
  destruct (menu_loop_runs _ _ _ _ _ _ _ Hmenu ltac:(done) evs1 f evs2 Hsplit)
    as (Hupd & Hrest).
  split; [by apply Hupd | exact Hrest].
Qed.

(** How a session ends, by its last pass. *)
Lemma menu_loop_exit fuel cfg w kb evs r w' :
  menu_loop json_loads py_int run_start fuel cfg w kb = (evs, r, w') ->
  match r with
  | Exited => exists evs0, evs = evs0 ++ [EvGoodbye] /\ EvGoodbye ∉ evs0
  | Uncaught e =>
      (EvGoodbye ∉ evs)
      /\ (e = EOFError \/ e = JSONDecodeError \/ e = ValueError
          \/ exists evs0 f w0 w1,
               evs = evs0 ++ [EvStart f]
               /\ run_start f w0 = (w1, Raised e)
               /\ w' = w1)
  end.
Proof.
  revert cfg w kb evs r w'.
  induction fuel as [|fuel IH]; intros cfg w kb evs r w'; simpl.
  { intros [= <- <- <-]. split; [apply not_elem_of_nil | by left]. }
  pose proof (menu_iteration_shape cfg w kb) as Hshape.
  destruct (menu_iteration json_loads py_int run_start cfg w kb)
    as [cfg' w1 kb' evs0|w1 evs0|e w1 evs0] eqn:Hit.
  - destruct (menu_loop json_loads py_int run_start fuel cfg' w1 kb')
      as [[evs' r'] w2] eqn:Hloop.
    intros [= <- <- <-].
    specialize (IH cfg' w1 kb' evs' r' w2 Hloop).
    assert (Hno : EvGoodbye ∉ evs0).
    { destruct Hshape as [[-> _] | [_ [-> | [-> | [-> | (b & _ & ->)]]]]];
        intros [=]%list_elem_of_singleton. }
    destruct r' as [|e].
    + destruct IH as (evs0' & -> & Hnot). exists (evs0 ++ evs0').
      split; [by rewrite app_assoc|].
      intros [H|H]%elem_of_app; contradiction.
    + destruct IH as [Hnot Hcause]. split.
      * intros [H|H]%elem_of_app; contradiction.
      * destruct Hcause as [He | [He | [He | (evs1 & f & w0 & w3 & -> & Hr & ->)]]];
          [by left | by right; left | by right; right; left |].
        right. right. right. exists (evs0 ++ evs1), f, w0, w3.
        by rewrite app_assoc.
  - intros [= <- <- <-]. subst evs0. exists []. split; [done|].
    apply not_elem_of_nil.
  - intros [= <- <- <-].
    assert (Hcause : e = EOFError \/ e = JSONDecodeError \/ e = ValueError
                     \/ exists b, evs0 = [EvStart (fuzzer_of cfg b)]
                                  /\ run_start (fuzzer_of cfg b) w
                                     = (w1, Raised e)).
    { clear Hshape IH. revert Hit. unfold menu_iteration, input.
      destruct kb as [|line kb]; [intros [= <- _ _]; by left|].
      destruct (String.eqb (PyStr.strip line) "1").
      { destruct (cfg_base_url cfg) as [b|]; [|discriminate].
        destruct (PyStr.truthy b); [|discriminate].
        cbv zeta. fold (fuzzer_of cfg b).
        destruct (run_start (fuzzer_of cfg b) w) as [w3 [|e']] eqn:Hr;
          [discriminate|].
        intros [= <- <- <-]. right. right. right. by exists b. }
      destruct (String.eqb (PyStr.strip line) "2").
      { destruct (configure json_loads py_int cfg kb) as [e'|[c k]] eqn:Hc;
          [|discriminate].
        intros [= <- _ _]. revert Hc. clear.
        unfold configure, bind, input, ret, raise.
        destruct kb as [|l1 [|l2 [|l3 [|l4 kb4]]]];
          try (intros [= <-]; by left).
        destruct (PyStr.truthy (PyStr.strip l4));
          [destruct (json_loads (PyStr.strip l4));
           [|intros [= <-]; by right; left]|];
          (destruct kb4 as [|l5 kb5]; [intros [= <-]; by left|]);
          (destruct (PyStr.truthy (PyStr.strip l5));
           [destruct (json_loads (PyStr.strip l5));
            [|intros [= <-]; by right; left]|]);
          (destruct kb5 as [|l6 [|l7 kb7]]; try (intros [= <-]; by left));
          (destruct (PyStr.truthy (PyStr.strip l7));
           [destruct (mapM py_int _);
            [|intros [= <-]; by right; right; left]|]);
          discriminate. }
      destruct (String.eqb (PyStr.strip line) "3").
      { destruct kb as [|l kb]; [|discriminate].
        intros [= <- _ _]. by left. }
      destruct (String.eqb (PyStr.strip line) "4"); discriminate. }
    split.
    + destruct Hshape as [-> | [-> | (b & _ & -> & _)]];
        [apply not_elem_of_nil | intros [=]%list_elem_of_singleton
        | intros [=]%list_elem_of_singleton].
    + destruct Hcause as [He | [He | [He | (b & -> & Hr)]]];
        [by left | by right; left | by right; right; left |].
      right. right. right. by exists [], (fuzzer_of cfg b), w, w1.
Qed.

(** X15. How a session ends.  It returns through option 4 only: then the
    goodbye is its last event and occurs nowhere before.  Otherwise an
    exception leaves [interactive_menu] and no goodbye is printed: the
    keyboard ran out ([EOFError]), an entry of option 2 was malformed
    ([JSONDecodeError], [ValueError]), or a run raised, in which case the
    start of that run is the last event, the exception is the run's and
    the world is the one the run left. *)
Theorem menu_exits_through_option_4 :
  forall (w w' : world) (kb : list string) (evs : list menu_event)
         (r : menu_result),
    interactive_menu json_loads py_int run_start w kb = (evs, r, w') ->
    match r with
    | Exited => exists evs0, evs = evs0 ++ [EvGoodbye] /\ EvGoodbye ∉ evs0
    | Uncaught e =>
        (EvGoodbye ∉ evs)
        /\ (e = EOFError \/ e = JSONDecodeError \/ e = ValueError
            \/ exists evs0 f w0 w1,
                 evs = evs0 ++ [EvStart f]
                 /\ run_start f w0 = (w1, Raised e)
                 /\ w' = w1)
    end.
Proof.
  intros w w' kb evs r. apply menu_loop_exit.
Qed.

End MenuSessions.

Lemma configure_blank_keeps_settings_witness :
  configure sample_json_loads sample_int initial_config
    [EmptyString; " "; EmptyString; "  "; EmptyString; EmptyString;
     EmptyString; "4"]
  = inr (initial_config, ["4"]).
Proof.
  apply configure_blank_keeps_settings; reflexivity.
Defined.

Lemma settings_change_only_in_configure_witness :
  exists line rest,
    ["2"; "http://t/"; EmptyString; EmptyString; EmptyString; EmptyString;
     "GET"; EmptyString; "4"] = line :: rest
    /\ PyStr.strip line = "2"
    /\ configure sample_json_loads sample_int initial_config rest
       = inr (sample_configured, ["4"]).
Proof.
  apply (settings_change_only_in_configure sample_json_loads sample_int
           sample_run_start initial_config sample_configured ([], ∅) ([], ∅)
           ["2"; "http://t/"; EmptyString; EmptyString; EmptyString;
            EmptyString; "GET"; EmptyString; "4"] ["4"] [EvUpdated]).
  - vm_compute. reflexivity.
  - discriminate.
Defined.

Lemma runs_follow_configuration_witness :
  let f := __init__ "http://t/" DEFAULT_WORDLIST "out.txt" DEFAULT_HEADERS
             (JObject []) ["GET"; "HEAD"] [200; 404] in
  EvUpdated ∈ [EvMissingTarget; EvUpdated]
  /\ found_endpoints f = ∅
  /\ PyStr.last_char (base_url f) <> Some "/"%char
  /\ methods f <> [].
Proof.
  intros f.
  apply (runs_follow_configuration sample_json_loads sample_int
           sample_run_start ([], ∅)
           (interactive_menu sample_json_loads sample_int sample_run_start
              ([], ∅) sample_keyboard).2
           sample_keyboard
           [EvMissingTarget; EvUpdated; EvStart f; EvInvalid; EvGoodbye]
           Exited [EvMissingTarget; EvUpdated] [EvInvalid; EvGoodbye] f).
  - vm_compute. reflexivity.
  - reflexivity.
Defined.

Lemma menu_exits_through_option_4_witness :
  let run := interactive_menu sample_json_loads sample_int sample_run_start
               ([], ∅) in
  (exists evs0,
     (run sample_keyboard).1.1 = evs0 ++ [EvGoodbye] /\ EvGoodbye ∉ evs0)
  /\ (EvGoodbye ∉ (run ["1"; "3"]).1.1)
  /\ ((EvGoodbye ∉ (run sample_keyboard_unwritable).1.1)
      /\ (OSError = EOFError \/ OSError = JSONDecodeError
          \/ OSError = ValueError
          \/ exists evs0 f w0 w1,
               (run sample_keyboard_unwritable).1.1 = evs0 ++ [EvStart f]
               /\ sample_run_start f w0 = (w1, Raised OSError)
               /\ (run sample_keyboard_unwritable).2 = w1)).
Proof.
  intros run. split; [|split].
  - apply (menu_exits_through_option_4 sample_json_loads sample_int
             sample_run_start ([], ∅) (run sample_keyboard).2
             sample_keyboard _ Exited).
    vm_compute. reflexivity.
  - apply (menu_exits_through_option_4 sample_json_loads sample_int
             sample_run_start ([], ∅) (run ["1"; "3"]).2
             ["1"; "3"] _ (Uncaught EOFError)).
    vm_compute. reflexivity.
  - apply (menu_exits_through_option_4 sample_json_loads sample_int
             sample_run_start ([], ∅) (run sample_keyboard_unwritable).2
             sample_keyboard_unwritable _ (Uncaught OSError)).
    vm_compute. reflexivity.
Defined.

(** ** The output file, read back *)

Lemma contains_char_append c a b :
  contains_char c (a +:+ b) = contains_char c a || contains_char c b.
Proof.
  induction a as [|x a IH]; [done|].
  rewrite append_cons. simpl. rewrite IH. by rewrite orb_assoc.
Qed.

Lemma contains_char_lstrip c P s :
  contains_char c s = false -> contains_char c (PyStr.lstrip_by P s) = false.
Proof.
  induction s as [|x s IH]; simpl; [done|].
  intros [Hx Hs]%orb_false_iff.
  destruct (P x); [by apply IH|]. simpl. by rewrite Hx, Hs.
Qed.

Lemma contains_char_rstrip c P s :
  contains_char c s = false -> contains_char c (PyStr.rstrip_by P s) = false.
Proof.
  induction s as [|x s IH]; simpl; [done|].
  intros [Hx Hs]%orb_false_iff. specialize (IH Hs).
  destruct (PyStr.rstrip_by P s) as [|y r].
  - destruct (P x); simpl; [done|]. by rewrite Hx.
  - simpl in *. by rewrite Hx, IH.
Qed.

Lemma keep_lines_lf_last s : Forall lf_last (PyStr.keep_lines s).
Proof.
  induction s as [|c s IH]; simpl; [constructor|].
  destruct (Ascii.eqb c "010") eqn:Ec.
  - apply Ascii.eqb_eq in Ec. subst c. constructor; [|exact IH].
    exists EmptyString. split; [done|]. by right.
  - destruct (PyStr.keep_lines s) as [|l ls].
    + constructor; [|constructor]. exists (String c EmptyString).
      split; [simpl; by rewrite Ec|]. by left.
    + inversion IH as [|? ? (body & Hb & Hl) Hls]; subst.
      constructor; [|exact Hls]. exists (String c body).
      split; [simpl; by rewrite Ec, Hb|].
      destruct Hl as [-> | ->]; [by left | by right].
Qed.

Lemma lstrip_by_lf_last P line : lf_last line -> lf_last (PyStr.lstrip_by P line).
Proof.
  intros (body & Hb & Hl). revert line Hl.
  induction body as [|c body IH]; intros line Hl.
  - destruct Hl as [-> | ->].
    + exists EmptyString. split; [done|]. by left.
    + rewrite append_nil. unfold LF. simpl. destruct (P "010"%char).
      * exists EmptyString. split; [done|]. by left.
      * exists EmptyString. split; [done|]. by right.
  - simpl in Hb. apply orb_false_iff in Hb as [Hc Hb].
    destruct Hl as [-> | ->]; rewrite ?append_cons; simpl;
      (destruct (P c);
       [apply (IH Hb); auto
       |exists (String c body); split; [simpl; by rewrite Hc, Hb|auto]]).
Qed.

Lemma rstrip_by_drop_lf P body :
  P "010"%char = true ->
  PyStr.rstrip_by P (body +:+ LF) = PyStr.rstrip_by P body.
Proof.
  intros HP. induction body as [|c body IH].
  - rewrite append_nil. unfold LF. simpl. by rewrite HP.
  - rewrite append_cons. simpl. by rewrite IH.
Qed.

(** A candidate read from the file holds no line feed. *)
Lemma strip_line_no_lf line :
  lf_last line -> contains_char "010" (PyStr.strip line) = false.
Proof.
  intros Hline. unfold PyStr.strip.
  destruct (lstrip_by_lf_last PyStr.is_space line Hline)
    as (body & Hb & [-> | ->]).
  - by apply contains_char_rstrip.
  - rewrite rstrip_by_drop_lf by reflexivity. by apply contains_char_rstrip.
Qed.

Lemma loaded_candidate_no_lf self fs c :
  c ∈ _load_wordlist self fs -> contains_char "010" c = false.
Proof.
  unfold _load_wordlist, _load_wordlist_with.
  rewrite elem_of_elements, elem_of_list_to_set.
  assert (Hcommon : forall c, c ∈ COMMON_PATHS ->
                              contains_char "010" c = false).
  { apply Forall_forall. compute_decide. }
  destruct (fs !! wordlist self) as [content|]; simpl; [|apply Hcommon].
  rewrite elem_of_app. intros [Hc | Hc]; [|by apply Hcommon].
  apply list_elem_of_fmap in Hc as (line & -> & Hline).
  apply list_elem_of_filter in Hline as [_ Hline].
  apply strip_line_no_lf.
  pose proof (keep_lines_lf_last (PyStr.universal_newlines content)) as Hall.
  rewrite Forall_forall in Hall. by apply Hall.
Qed.

Lemma found_scheduled net n self logs paths schedule d u :
  run net schedule (dispatch_init n self logs paths) = Some d ->
  u ∈ found_endpoints (d_self d) ->
  u ∈ found_endpoints self
  \/ exists path, path ∈ paths /\ u = request_url self path.
Proof.
  intros Hrun Hu.
  destruct (reach_found net n self logs paths schedule d Hrun) as [_ Hfound].
  apply Hfound in Hu as [Hu | (i & path & method & ret & Hi & Hurl & _)];
    [by left|].
  right. exists path. split; [|done].
  assert (Hin : (path, method) ∈ work_list paths (methods self)).
  { rewrite <- (reach_items net n self logs paths schedule d Hrun).
    apply list_elem_of_In, in_map_iff. exists (path, method, Finished ret).
    split; [done|]. apply list_elem_of_In. by eapply list_elem_of_lookup_2. }
  by apply elem_of_work_list in Hin as [Hp _].
Qed.

(** X16. The output file of a run reads back line by line as the
    discovered URLs: when [start] returns from an object with an empty
    discovered set and a target without line feed, and something was
    discovered, the lines of the output file are exactly the discovered
    URLs in sorted order, one per line, each ended by a line feed.  No
    candidate can break a line, since candidates are read line by line and
    trimmed. *)
Theorem output_file_reads_back :
  forall (net : nat -> outcome) (writable : string -> bool)
         (self : StreamFuzz) (logs : list log_record)
         (fs : filesystem) (schedule : list action) (self' : StreamFuzz)
         (logs' : list log_record) (fs' : filesystem),
    start net writable self logs fs schedule
    = Some (self', logs', fs', Returned) ->
    found_endpoints self = ∅ ->
    contains_char "010" (base_url self) = false ->
    found_endpoints self' <> ∅ ->
    exists content,
      fs' !! output_file self = Some content
      /\ PyStr.keep_lines content
         = map (fun u => u +:+ LF) (sorted (elements (found_endpoints self'))).
Proof.
  intros net writable self logs fs schedule self' logs' fs' Hstart Hempty
    Hbase Hne.
  apply start_inv in Hstart as (d & Hret & -> & Hsave).
  destruct (process_paths_inv _ _ _ _ _ _ Hret) as [Hrun Hc].
  destruct (reach_found net _ self _ _ schedule d Hrun)
    as [(_ & _ & _ & Hout & _) _].
  unfold _save_results in Hsave.
  rewrite bool_decide_eq_false_2 in Hsave by done.
  destruct (writable _); [|discriminate].
  injection Hsave as _ ->. rewrite Hout.
  eexists. split; [apply lookup_insert_eq|].
  apply keep_lines_write_lines. apply Forall_forall. intros u Hu.
  destruct (sorted_spec (elements (found_endpoints (d_self d)))) as [_ Hperm].
  rewrite Hperm, elem_of_elements in Hu.
  destruct (found_scheduled _ _ _ _ _ _ _ u Hrun Hu) as [Hu0 | (path & Hp & ->)].
  { rewrite Hempty in Hu0. by apply elem_of_empty in Hu0. }
  unfold request_url. rewrite !contains_char_append, Hbase. simpl.
  apply contains_char_lstrip. by eapply loaded_candidate_no_lf.
Qed.

Lemma output_file_reads_back_witness :
  let r := default (sample_fuzzer, [], ∅) sample_run in
  exists content,
    r.2 !! DEFAULT_OUTPUT = Some content
    /\ PyStr.keep_lines content
       = map (fun u => u +:+ LF) (sorted (elements (found_endpoints r.1.1))).
Proof.
  intros r.
  apply (output_file_reads_back (fun _ => Response 200) (fun _ => true)
           sample_fuzzer [] ∅ (sequential_schedule 5) r.1.1 r.1.2 r.2).
  - vm_compute. reflexivity.
  - reflexivity.
  - reflexivity.
  - compute_decide.
Defined.
